(** * Soccermatics, lesson 2: fitting the xG model

    A shallow embedding of the numeric kernel of
    [course/lessons/lesson2/plot_xGModelFit.py]: the shot-angle feature
    (the vectorised [shots["Angle"]] column and the scalar loop that fills
    [pgoal_2d]), the logistic probability [calculate_xG], McFadden's
    pseudo R squared and the ROC counting loop.

    Numeric model.  A NumPy [float64] is modelled by [npfloat]: a real
    number, one of the two infinities, or NaN.  The IEEE 754 results that
    NumPy produces instead of raising -- division by zero, operations on
    infinities, NaN propagation, comparisons with NaN -- are written out,
    and so is the saturation of the logistic formula: [np.exp] overflows
    to infinity and underflows to 0, and [1 + e] is 1 for a nonnegative
    [e] of at most half a unit in the last place of 1.  Apart from that,
    arithmetic on finite values is exact (rounding in the last place and
    signed zeros are abstracted away).  A Python [float] behaves the same
    except that dividing by zero raises [ZeroDivisionError]. *)

From Stdlib Require Import Reals Lra Lia ZArith List String Bool.
From stdpp Require Import base option strings gmap.
Import ListNotations.

Local Open Scope R_scope.

(** ** NumPy floating-point values *)

Inductive npfloat : Type :=
  | Num (r : R)
  | PosInf
  | NegInf
  | NaN.

Definition is_finite (v : npfloat) : Prop :=
  match v with Num _ => True | _ => False end.

(** [np.pi] *)
Definition np_pi : npfloat := Num PI.

(** Sign of a real, as IEEE arithmetic on infinities needs it. *)
Inductive sign : Type := Neg | Zero | Pos.

Definition Rsign (r : R) : sign :=
  match total_order_T r 0 with
  | inleft (left _) => Neg
  | inleft (right _) => Zero
  | inright _ => Pos
  end.

Definition np_neg (v : npfloat) : npfloat :=
  match v with
  | Num r => Num (- r)
  | PosInf => NegInf
  | NegInf => PosInf
  | NaN => NaN
  end.

(** [a + b] *)
Definition np_add (a b : npfloat) : npfloat :=
  match a, b with
  | NaN, _ | _, NaN => NaN
  | Num x, Num y => Num (x + y)
  | PosInf, NegInf | NegInf, PosInf => NaN
  | PosInf, _ | _, PosInf => PosInf
  | NegInf, _ | _, NegInf => NegInf
  end.

(** [a - b] *)
Definition np_sub (a b : npfloat) : npfloat := np_add a (np_neg b).

(** An infinity with the sign of [s]; NaN for a zero factor. *)
Definition inf_of_sign (s : sign) : npfloat :=
  match s with Pos => PosInf | Neg => NegInf | Zero => NaN end.

Definition sign_of (v : npfloat) : option sign :=
  match v with
  | Num r => Some (Rsign r)
  | PosInf => Some Pos
  | NegInf => Some Neg
  | NaN => None
  end.

Definition sign_mul (s t : sign) : sign :=
  match s, t with
  | Zero, _ | _, Zero => Zero
  | Pos, Pos | Neg, Neg => Pos
  | Pos, Neg | Neg, Pos => Neg
  end.

(** [a * b] *)
Definition np_mul (a b : npfloat) : npfloat :=
  match a, b with
  | Num x, Num y => Num (x * y)
  | _, _ =>
      match sign_of a, sign_of b with
      | Some s, Some t => inf_of_sign (sign_mul s t)
      | _, _ => NaN
      end
  end.

(** [a / b] on NumPy values: division by zero gives an infinity (or NaN
    for [0 / 0]) and does not raise. *)
Definition np_div (a b : npfloat) : npfloat :=
  match a, b with
  | NaN, _ | _, NaN => NaN
  | Num x, Num y =>
      if Req_dec_T y 0 then inf_of_sign (Rsign x) else Num (x / y)
  | Num _, (PosInf | NegInf) => Num 0
  | (PosInf | NegInf), (PosInf | NegInf) => NaN
  | PosInf, Num y => match Rsign y with Neg => NegInf | _ => PosInf end
  | NegInf, Num y => match Rsign y with Neg => PosInf | _ => NegInf end
  end.

(** The least value that no finite [float64] holds: a result of at least
    [2 ** 1024] is rounded to infinity. *)
Definition exp_overflow : R := 2 ^ 1024.

(** Half of the least positive [float64], [2 ** -1074]: a positive result
    of at most [2 ** -1075] is rounded to 0. *)
Definition exp_underflow : R := / 2 ^ 1075.

(** Half a unit in the last place of 1, [2 ** -53]. *)
Definition half_ulp : R := / 2 ^ 53.

(** [np.exp]: it overflows to infinity (above about 709.78) and
    underflows to 0 (below about -745.13). *)
Definition np_exp (v : npfloat) : npfloat :=
  match v with
  | Num r =>
      if Rle_dec exp_overflow (exp r) then PosInf
      else if Rle_dec (exp r) exp_underflow then Num 0
      else Num (exp r)
  | PosInf => PosInf
  | NegInf => Num 0
  | NaN => NaN
  end.

(** [1 + e]: a nonnegative [e] of at most half a unit in the last place
    of 1 is absorbed, the sum is 1. *)
Definition one_plus (v : npfloat) : npfloat :=
  match v with
  | Num e =>
      if Rle_dec 0 e then
        if Rle_dec e half_ulp then Num 1 else Num (1 + e)
      else Num (1 + e)
  | _ => np_add (Num 1) v
  end.

(** [np.arctan] *)
Definition np_arctan (v : npfloat) : npfloat :=
  match v with
  | Num r => Num (atan r)
  | PosInf => Num (PI / 2)
  | NegInf => Num (- (PI / 2))
  | NaN => NaN
  end.

(** [a > b]: false as soon as one side is NaN. *)
Definition np_gt (a b : npfloat) : bool :=
  match a, b with
  | NaN, _ | _, NaN => false
  | Num x, Num y => if Rlt_dec y x then true else false
  | PosInf, (Num _ | NegInf) => true
  | Num _, NegInf => true
  | _, _ => false
  end.

(** [a < b] *)
Definition np_lt (a b : npfloat) : bool := np_gt b a.

(** ** Python results: a value or a raised exception *)

Inductive py_exn : Type :=
  | ZeroDivisionError
  | KeyError (k : string)
  | IndexError (i : nat).

Inductive py_result (A : Type) : Type :=
  | Return (a : A)
  | Raise (e : py_exn).
Arguments Return {A} a.
Arguments Raise {A} e.

Definition py_bind {A B : Type} (m : py_result A) (k : A -> py_result B)
  : py_result B :=
  match m with
  | Return a => k a
  | Raise e => Raise e
  end.

Notation "'let!' x ':=' m 'in' k" := (py_bind m (fun x => k))
  (at level 10, x name, m at level 200, k at level 200).

(** ** Geometry: the shooting angle *)

(** The width of the goal mouth in metres, the literal [7.32] of the
    script. *)
Definition goal_width : R := 7.32.

Section ShotAngle.

(** The angle is written over the goal width [g]; the script has the
    literal [7.32] in its place. *)
Variable g : R.

(** [g * X / (X**2 + C**2 - (g/2)**2)] on pandas columns: a NumPy
    division. *)
Definition angle_ratio (X C : R) : npfloat :=
  np_div (Num (g * X)) (Num (X ^ 2 + C ^ 2 - (g / 2) ^ 2)).

(** [np.arctan(g * X / (X**2 + C**2 - (g/2)**2))] *)
Definition raw_arctan (X C : R) : npfloat :=
  np_arctan (angle_ratio X C).

(** [shots["Angle"] = np.where(raw > 0, raw, raw + np.pi)] *)
Definition shotAngle (X C : R) : npfloat :=
  if np_gt (raw_arctan X C) (Num 0)
  then raw_arctan X C
  else np_add (raw_arctan X C) np_pi.

End ShotAngle.

(** The [Angle] column of the [shots] data frame. *)
Definition shots_Angle (X C : R) : npfloat := shotAngle goal_width X C.

(** The angle computed in the body of the loop that fills [pgoal_2d]:
    [x] and [y] are Python integers, the quotient is a division of Python
    floats (which raises on a zero divisor), and the correction is
    [if a < 0: a = np.pi + a]. *)
Definition pgoal_angle (x y : Z) : py_result npfloat :=
  let den :=
    IZR (x ^ 2) + Rabs (IZR y - 68 / 2) ^ 2 - (goal_width / 2) ^ 2 in
  if Req_dec_T den 0 then Raise ZeroDivisionError
  else
    let a := np_arctan (Num (goal_width * IZR x / den)) in
    Return (if np_lt a (Num 0) then np_add np_pi a else a).

(** ** The logistic probability model *)

Local Open Scope string_scope.

(** A row handed to [calculate_xG]: a mapping from column names to
    values (a pandas row or a Python [dict]). *)
Abbreviation row := (gmap string npfloat).

(** [sh[v]]: a missing key raises [KeyError]. *)
Definition getitem (sh : row) (v : string) : py_result npfloat :=
  match sh !! v with
  | Some x => Return x
  | None => Raise (KeyError v)
  end.

(** [b[i]]: a position past the end raises. *)
Definition param (b : list npfloat) (i : nat) : py_result npfloat :=
  match b !! i with
  | Some x => Return x
  | None => Raise (IndexError i)
  end.

(** [model_variables = ['Angle','Distance','X','C', "X2", "C2", "AX"]] *)
Definition model_variables : list string :=
  ["Angle"; "Distance"; "X"; "C"; "X2"; "C2"; "AX"].

(** The loop [for i,v in enumerate(vars): bsum=bsum+b[i+1]*sh[v]], from
    position [i] on. *)
Fixpoint bsum_loop (b : list npfloat) (sh : row) (i : nat)
    (vars : list string) (bsum : npfloat) : py_result npfloat :=
  match vars with
  | [] => Return bsum
  | v :: vars' =>
      let! bi := param b (i + 1) in
      let! x := getitem sh v in
      bsum_loop b sh (S i) vars' (np_add bsum (np_mul bi x))
  end.

(** The linear predictor [bsum] at the end of the loop. *)
Definition linear_predictor (vars : list string) (b : list npfloat)
    (sh : row) : py_result npfloat :=
  let! b0 := param b 0 in
  bsum_loop b sh 0 vars b0.

(** [1/(1+np.exp(t))], the curve of the script's logistic plots.  It is
    exactly 0 where the exponential overflows and exactly 1 where the
    exponential is absorbed by the 1. *)
Definition logistic (t : npfloat) : npfloat :=
  np_div (Num 1) (one_plus (np_exp t)).

(** [calculate_xG(sh)], over the list of model variables and the fitted
    parameters [b] it reads from the enclosing scope. *)
Definition calculate_xG (vars : list string) (b : list npfloat)
    (sh : row) : py_result npfloat :=
  let! bsum := linear_predictor vars b sh in
  Return (logistic bsum).

(** [np.sqrt] *)
Definition np_sqrt (v : npfloat) : npfloat :=
  match v with
  | Num r => if Rlt_dec r 0 then NaN else Num (sqrt r)
  | PosInf => PosInf
  | _ => NaN
  end.

(** The dictionary [sh] built for the cell [(x, y)] of [pgoal_2d]. *)
Definition grid_shot (x y : Z) : py_result row :=
  let! a := pgoal_angle x y in
  let c := Rabs (IZR y - 68 / 2) in
  Return
    (<["C2" := Num ((IZR y - 68 / 2) ^ 2)]>
     (<["C" := Num c]>
     (<["X2" := Num (IZR (x ^ 2))]>
     (<["AX" := np_mul (Num (IZR x)) a]>
     (<["X" := Num (IZR x)]>
     (<["D2" := Num (IZR (x ^ 2) + c ^ 2)]>
     (<["Distance" := np_sqrt (Num (IZR (x ^ 2) + c ^ 2))]>
     (<["Angle" := a]> ∅)))))))).

(** [pgoal_2d[x,y] = calculate_xG(sh)] *)
Definition pgoal_cell (b : list npfloat) (x y : Z) : py_result npfloat :=
  let! sh := grid_shot x y in
  calculate_xG model_variables b sh.

(** ** Model evaluation *)

(** McFadden's pseudo R squared, [1 - test_model.llf / null_model.llf].
    The fitted models report their log-likelihoods as NumPy scalars, so
    the division follows [np_div]; nothing in the expression raises. *)
Definition pseudoR2 (llf llnull : npfloat) : py_result npfloat :=
  Return (np_sub (Num 1) (np_div llf llnull)).

(** The two columns of [shots] the ROC loop reads. *)
Record shot : Type := mkShot { Goal : Z; xG : npfloat }.

(** The four counters of one threshold, [TP[i]], [FP[i]], [TN[i]] and
    [FN[i]]; they live in float arrays made by [np.zeros]. *)
Record counts : Type := mkCounts { TP : R; FP : R; TN : R; FN : R }.

Definition zeros : counts := mkCounts 0 0 0 0.

(** The body of the inner loop for one [shot]: two independent [if]s on
    the label. *)
Definition count_shot (threshold : npfloat) (c : counts) (s : shot)
  : counts :=
  let c1 :=
    if (Goal s =? 1)%Z then
      if np_gt (xG s) threshold
      then mkCounts (TP c + 1) (FP c) (TN c) (FN c)
      else mkCounts (TP c) (FP c) (TN c) (FN c + 1)
    else c in
  if (Goal s =? 0)%Z then
    if np_gt (xG s) threshold
    then mkCounts (TP c1) (FP c1 + 1) (TN c1) (FN c1)
    else mkCounts (TP c1) (FP c1) (TN c1 + 1) (FN c1)
  else c1.

(** The counters after the inner loop over all shots. *)
Definition roc_counts (threshold : npfloat) (shots : list shot) : counts :=
  fold_left (count_shot threshold) shots zeros.

Definition numobs : nat := 100.

(** [np.arange(0, 1, 1 / numobs)] *)
Definition thresholds : list npfloat :=
  map (fun i => Num (0 + INR i * (1 / INR numobs))) (seq 0 numobs).

(** The plotted point [(FP / (FP + TN), TP / (TP + FN))] of one
    threshold; the divisions are NumPy array divisions, run under
    [np.seterr(divide='ignore', invalid='ignore')]. *)
Definition roc_point (threshold : npfloat) (shots : list shot)
  : npfloat * npfloat :=
  let c := roc_counts threshold shots in
  (np_div (Num (FP c)) (Num (FP c + TN c)),
   np_div (Num (TP c)) (Num (TP c + FN c))).

Definition roc_curve (shots : list shot) : list (npfloat * npfloat) :=
  map (fun th => roc_point th shots) thresholds.

(** A row of the [shots] data frame before scoring: its label and its
    numeric columns. *)
Record shot_row : Type := mkRow { row_Goal : Z; row_cols : row }.

(** [xG=shots.apply(calculate_xG, axis=1); shots = shots.assign(xG=xG)] *)
Fixpoint assign_xG (b : list npfloat) (rows : list shot_row)
  : py_result (list shot) :=
  match rows with
  | [] => Return []
  | r :: rows' =>
      let! p := calculate_xG model_variables b (row_cols r) in
      let! rest := assign_xG b rows' in
      Return (mkShot (row_Goal r) p :: rest)
  end.

(** ** Deriving the columns of a shot

    A Wyscout shot event carries the position in percent of the pitch
    (Python integers) and a list of tag identifiers. *)
Record shot_event : Type :=
  mkEvent { pos_x : Z; pos_y : Z; tag_ids : list Z }.

(** [(100 - cell[0]['x']) * 105/100] *)
Definition event_X (ev : shot_event) : R :=
  (100 - IZR (pos_x ev)) * 105 / 100.

(** [cell[0]['y'] * 68/100] *)
Definition event_Y (ev : shot_event) : R := IZR (pos_y ev) * 68 / 100.

(** [abs(cell[0]['y'] - 50) * 68/100] *)
Definition event_C (ev : shot_event) : R :=
  Rabs (IZR (pos_y ev) - 50) * 68 / 100.

(** [1 if {'id':101} in x else 0] *)
Definition event_Goal (ev : shot_event) : Z :=
  if existsb (Z.eqb 101) (tag_ids ev) then 1%Z else 0%Z.

(** The numeric columns the script derives for one shot: [X], [Y], [C],
    [Distance], [Angle], and later [D2], [X2], [C2] and [AX]. *)
Definition event_cols (ev : shot_event) : row :=
  let X := event_X ev in
  let C := event_C ev in
  let distance := np_sqrt (Num (X ^ 2 + C ^ 2)) in
  let angle := shots_Angle X C in
  <["AX" := np_mul angle (Num X)]>
  (<["C2" := Num (C ^ 2)]>
  (<["X2" := Num (X ^ 2)]>
  (<["D2" := np_mul distance distance]>
  (<["Angle" := angle]>
  (<["Distance" := distance]>
  (<["C" := Num C]>
  (<["Y" := Num (event_Y ev)]>
  (<["X" := Num X]> ∅)))))))).

Definition event_row (ev : shot_event) : shot_row :=
  mkRow (event_Goal ev) (event_cols ev).

(** ** Predicates used in the statements *)

(** The coefficient vector has a finite entry at position 0 and at one
    position per model variable. *)
Definition has_params (vars : list string) (b : list npfloat) : Prop :=
  forall j, (j <= length vars)%nat -> exists r, b !! j = Some (Num r).

(** The row has a finite value under every model variable. *)
Definition has_features (vars : list string) (sh : row) : Prop :=
  forall v, In v vars -> exists r, sh !! v = Some (Num r).

(** Number of shots carrying the label [l]. *)
Definition count_label (l : Z) (shots : list shot) : nat :=
  length (List.filter (fun s => (Goal s =? l)%Z) shots).

Definition nonneg_counts (c : counts) : Prop :=
  0 <= TP c /\ 0 <= FP c /\ 0 <= TN c /\ 0 <= FN c.

(** What a plotted rate [num / den] is: NaN on a zero divisor, the
    ordinary quotient otherwise. *)
Definition rate_is (num den : R) (rate : npfloat) : Prop :=
  (den = 0 -> rate = NaN) /\ (den <> 0 -> rate = Num (num / den)).

(** A two-shot data set: one goal and one miss from the penalty spot. *)
Definition example_params : list npfloat :=
  [Num 3; Num (-3); Num 0; Num 0; Num 0; Num 0; Num 0; Num 0].

(** Coefficients whose intercept alone makes [np.exp] overflow. *)
Definition overflow_params : list npfloat :=
  [Num 1024; Num 0; Num 0; Num 0; Num 0; Num 0; Num 0; Num 0].

Definition example_cols : row :=
  list_to_map
    [("Angle", Num 1); ("Distance", Num 11); ("X", Num 11); ("C", Num 0);
     ("X2", Num 121); ("C2", Num 0); ("AX", Num 11)].

Definition example_rows : list shot_row :=
  [mkRow 1 example_cols; mkRow 0 example_cols].

(** ** The geometric reading of the angle

    The script takes its angle formula from "The Geometry of Shooting":
    the angle under which the goal mouth is seen, that is, the difference
    of the directions from the shot location to the two posts, which stand
    at [C = - g/2] and [C = g/2] on the goal line [X = 0]. *)
Definition subtended_angle (g X C : R) : R :=
  atan ((C + g / 2) / X) - atan ((C - g / 2) / X).


(** Number of shots that satisfy a test. *)
Definition count_if (P : shot -> bool) (shots : list shot) : nat :=
  length (List.filter P shots).

(** The four classes of the confusion matrix at a threshold, as tests on
    a shot. *)
Definition is_TP (th : npfloat) (s : shot) : bool :=
  (Goal s =? 1)%Z && np_gt (xG s) th.
Definition is_FN (th : npfloat) (s : shot) : bool :=
  (Goal s =? 1)%Z && negb (np_gt (xG s) th).
Definition is_FP (th : npfloat) (s : shot) : bool :=
  (Goal s =? 0)%Z && np_gt (xG s) th.
Definition is_TN (th : npfloat) (s : shot) : bool :=
  (Goal s =? 0)%Z && negb (np_gt (xG s) th).

(** ** Further parts of the script *)

(** [np.log] *)
Definition np_log (v : npfloat) : npfloat :=
  match v with
  | Num r =>
      match Rsign r with
      | Neg => NaN
      | Zero => NegInf
      | Pos => Num (ln r)
      end
  | PosInf => PosInf
  | _ => NaN
  end.

(** [1/(1+np.exp(b[0]+b[1]*x))]: the one-variable models of the script
    (the logistic curve it plots, the angle model and the distance
    model). *)
Definition logistic_curve (b0 b1 x : npfloat) : npfloat :=
  logistic (np_add b0 (np_mul b1 x)).

(** The body of the log-likelihood loop: [np.log(xG)] for a goal,
    [np.log(1 - xG)] for anything else. *)
Definition loglikelihood_step (ll : npfloat) (s : shot) : npfloat :=
  if (Goal s =? 1)%Z
  then np_add ll (np_log (xG s))
  else np_add ll (np_log (np_sub (Num 1) (xG s))).

(** [loglikelihood] after the loop over [shots_40 = shots.iloc[:40]]. *)
Definition loglikelihood (shots : list shot) : npfloat :=
  fold_left loglikelihood_step (firstn 40 shots) (Num 0).

(** The right-hand side of the model formula: the loop over
    [model_variables[:-1]] followed by [model + model_variables[-1]],
    which raises on an empty list (there is no last position; the
    exception is recorded with position 0). *)
Definition build_model (vars : list string) : py_result string :=
  let model :=
    fold_left (fun model v => model ++ v ++ " + ")
              (List.removelast vars) "" in
  match vars with
  | [] => Raise (IndexError 0)
  | _ :: _ => Return (model ++ List.last vars "")
  end.

(** [np.histogram(values, bins=nbins, range=[lo, hi])[1]]: the edges. *)
Definition bin_edge (nbins : nat) (lo hi : R) (i : nat) : R :=
  lo + (hi - lo) * INR i / INR nbins.

(** Membership in the bin [i]: half-open, except the last bin, which also
    holds its right edge.  Values that are not numbers fall in no bin. *)
Definition in_bin (nbins : nat) (lo hi : R) (i : nat) (v : npfloat)
  : bool :=
  match v with
  | Num r =>
      if Rle_dec (bin_edge nbins lo hi i) r then
        if Nat.eqb (S i) nbins
        then (if Rle_dec r (bin_edge nbins lo hi (S i)) then true else false)
        else (if Rlt_dec r (bin_edge nbins lo hi (S i)) then true else false)
      else false
  | _ => false
  end.

(** [np.histogram(values, bins=nbins, range=[lo, hi])[0]]: the counts,
    for at least one bin and [lo < hi] (the script passes 40 bins over
    [[0, 150]] and [[0, 70]]). *)
Definition histogram (nbins : nat) (lo hi : R) (values : list npfloat)
  : list nat :=
  map (fun i => length (List.filter (in_bin nbins lo hi i) values))
      (seq 0 nbins).

(** The empirical probability of scoring per bin of a column:
    [np.divide(goalcount_dist[0], shotcount_dist[0])], where the goals are
    the rows [shots.loc[shots["Goal"] == 1]].  A row is given by its
    label and its value in the column. *)
Definition prob_goal (nbins : nat) (lo hi : R) (rows : list (Z * npfloat))
  : list npfloat :=
  let goals := List.filter (fun r => (fst r =? 1)%Z) rows in
  let shotcount := histogram nbins lo hi (map snd rows) in
  let goalcount := histogram nbins lo hi (map snd goals) in
  map (fun gs => np_div (Num (INR (fst gs))) (Num (INR (snd gs))))
      (combine goalcount shotcount).

(** * Lesson 1: plotting passes

    The filters and loops of [course/lessons/lesson1/plot_PlottingPasses.py]
    over the event table; drawing itself is left to the plotting
    library.  An event row keeps the columns the script reads; a missing
    value (NaN in the table) is [None]. *)
Record pass_event : Type := mkPass {
  type_name : string;
  sub_type_name : option string;
  player_name : option string;
  team_name : string;
  start_x : R;
  start_y : R;
  end_x : R;
  end_y : R
}.

(** [column == 'text'] on a column with missing values: a missing value
    equals nothing, so [column != 'text'] holds for it. *)
Definition str_eq (a : option string) (s : string) : bool :=
  match a with
  | Some x => String.eqb x s
  | None => false
  end.

(** [passes = df.loc[type_name == 'Pass'].loc[sub_type_name != 'Throw-in']] *)
Definition passes (df : list pass_event) : list pass_event :=
  List.filter (fun e => negb (str_eq (sub_type_name e) "Throw-in"))
    (List.filter (fun e => String.eqb (type_name e) "Pass") df).

(** [plt.Arrow(x, y, dx, dy)] *)
Record arrow : Type := mkArrow { arrow_x : R; arrow_y : R; arrow_dx : R; arrow_dy : R }.

(** The segment an arrow covers: from its base to its tip. *)
Definition arrow_segment (a : arrow) : R * R * (R * R) :=
  ((arrow_x a, arrow_y a),
   ((arrow_x a + arrow_dx a)%R, (arrow_y a + arrow_dy a)%R)).

(** The arrows of the iterative solution: one for each pass of the loop
    made by Lucy Bronze, with [dx = end_x - x] and [dy = end_y - y]. *)
Definition iterative_arrows (df : list pass_event) : list arrow :=
  map (fun p => mkArrow (start_x p) (start_y p)
                        (end_x p - start_x p)%R (end_y p - start_y p)%R)
      (List.filter (fun p => str_eq (player_name p) "Lucy Bronze")
         (passes df)).

(** [df_pass = df.loc[mask_bronze, ['x', 'y', 'end_x', 'end_y']]] with
    [mask_bronze = (type_name == 'Pass') & (player_name == "Lucy Bronze")] *)
Definition df_pass (df : list pass_event) : list pass_event :=
  List.filter (fun e => String.eqb (type_name e) "Pass"
                        && str_eq (player_name e) "Lucy Bronze") df.

(** The segments [pitch.arrows(x, y, end_x, end_y)] draws for a table. *)
Definition pass_segments (l : list pass_event) : list (R * R * (R * R)) :=
  map (fun p => ((start_x p, start_y p), (end_x p, end_y p))) l.

(** [df_passes = df.loc[mask_england, ...]]: England's passes that are
    not throw-ins. *)
Definition df_passes (df : list pass_event) : list pass_event :=
  List.filter (fun e => String.eqb (type_name e) "Pass"
                        && String.eqb (team_name e) "England Women's"
                        && negb (str_eq (sub_type_name e) "Throw-in")) df.

Definition name_eq_dec (a b : option string) : {a = b} + {a <> b}.
Proof. decide equality. apply string_dec. Defined.

(** [Series.unique()]: the distinct values in the order of their first
    appearance; a missing value counts as one value. *)
Fixpoint unique_from (seen : list (option string))
    (l : list (option string)) : list (option string) :=
  match l with
  | [] => []
  | x :: l' =>
      if in_dec name_eq_dec x seen then unique_from seen l'
      else x :: unique_from (x :: seen) l'
  end.

Definition unique (l : list (option string)) : list (option string) :=
  unique_from [] l.

(** [names = df_passes['player_name'].unique()] *)
Definition names (df : list pass_event) : list (option string) :=
  unique (map player_name (df_passes df)).

(** [df_passes.loc[df_passes["player_name"] == name]]: a missing name
    selects nothing. *)
Definition player_df (df : list pass_event) (name : option string)
  : list pass_event :=
  match name with
  | Some n => List.filter (fun p => str_eq (player_name p) n) (df_passes df)
  | None => []
  end.

(** Whether the panel of [name] shows the pass [p]. *)
Definition selects (name : option string) (p : pass_event) : bool :=
  match name with
  | Some n => str_eq (player_name p) n
  | None => false
  end.

(** The 4 by 4 grid of pitches, numbered row by row as [.flat] does. *)
Definition grid_axes : list nat := seq 0 16.

(** The loop [for name, ax in zip(names, axs['pitch'].flat[:len(names)])]:
    the pitch, the name written over it and the passes drawn on it. *)
Definition player_panels (df : list pass_event)
  : list (nat * (option string * list pass_event)) :=
  combine (firstn (length (names df)) grid_axes)
          (map (fun name => (name, player_df df name)) (names df)).

(** Where a slice [seq[start:]] of a sequence of length [len] begins: a
    negative start counts from the end, and both ends are clipped. *)
Definition slice_start (start : Z) (len : nat) : nat :=
  if (start <? 0)%Z
  then Z.to_nat (Z.max 0 (start + Z.of_nat len))
  else Nat.min (Z.to_nat start) len.

(** The pitches removed by
    [for ax in axs['pitch'][-1, 16 - len(names):]: ax.remove()], for [n]
    names: the columns of the last row from the start of the slice on. *)
Definition removed_axes (n : nat) : list nat :=
  let s := slice_start (16 - Z.of_nat n) 4 in
  map (fun col => (12 + col)%nat) (seq s (4 - s)).

(** The pitches no player was drawn on. *)
Definition unused_axes (n : nat) : list nat := seq n (16 - n).

(** Sum of a list of natural numbers. *)
Definition total (l : list nat) : nat := fold_right Nat.add 0%nat l.

(** A small match sheet: two England passes by two players, a throw-in
    and a pass of the other team. *)
Definition example_df : list pass_event :=
  [mkPass "Pass" None (Some "Lucy Bronze") "England Women's" 60 70 80 75;
   mkPass "Pass" (Some "Throw-in") (Some "Lucy Bronze") "England Women's"
          90 80 95 70;
   mkPass "Pass" None (Some "Jill Scott") "England Women's" 50 40 60 40;
   mkPass "Pass" None (Some "Kosovare Asllani") "Sweden Women's" 30 30 40 35].

(** * Properties *)

Local Open Scope R_scope.

(** ** Facts about the numeric model *)

Lemma Rsign_pos (r : R) : 0 < r -> Rsign r = Pos.
Proof.
  intros Hr. unfold Rsign.
  destruct (total_order_T r 0) as [[Hlt | Heq] | Hgt]; try reflexivity; lra.
Qed.

Lemma Rsign_zero : Rsign 0 = Zero.
Proof.
  unfold Rsign.
  destruct (total_order_T 0 0) as [[Hlt | Heq] | Hgt]; try reflexivity; lra.
Qed.

Lemma np_gt_Num_true (x y : R) : y < x -> np_gt (Num x) (Num y) = true.
Proof. intros H. simpl. destruct (Rlt_dec y x); [reflexivity | lra]. Qed.

Lemma np_gt_Num_false (x y : R) : x <= y -> np_gt (Num x) (Num y) = false.
Proof. intros H. simpl. destruct (Rlt_dec y x); [lra | reflexivity]. Qed.

Lemma np_div_Num (x y : R) : y <> 0 -> np_div (Num x) (Num y) = Num (x / y).
Proof. intros H. simpl. destruct (Req_dec_T y 0); [contradiction | reflexivity]. Qed.

Lemma np_div_zero (x : R) : np_div (Num x) (Num 0) = inf_of_sign (Rsign x).
Proof. simpl. destruct (Req_dec_T 0 0); [reflexivity | contradiction]. Qed.

Lemma atan_pos (q : R) : 0 < q -> 0 < atan q.
Proof. intros H. rewrite <- atan_0. now apply atan_increasing. Qed.

Lemma atan_neg (q : R) : q < 0 -> atan q < 0.
Proof. intros H. rewrite <- atan_0. now apply atan_increasing. Qed.

(** The quotient under the arctangent, by cases on the divisor. *)
Lemma angle_ratio_regular (g X C : R) :
  X ^ 2 + C ^ 2 - (g / 2) ^ 2 <> 0 ->
  angle_ratio g X C = Num (g * X / (X ^ 2 + C ^ 2 - (g / 2) ^ 2)).
Proof. intros H. unfold angle_ratio. now apply np_div_Num. Qed.

Lemma angle_ratio_singular (g X C : R) :
  X ^ 2 + C ^ 2 - (g / 2) ^ 2 = 0 ->
  angle_ratio g X C = inf_of_sign (Rsign (g * X)).
Proof. intros H. unfold angle_ratio. rewrite H. apply np_div_zero. Qed.

(** The raw arctangent is a number, or NaN at [0 / 0]. *)
Lemma raw_arctan_cases (g X C : R) :
  (exists a, raw_arctan g X C = Num a /\ - PI / 2 <= a <= PI / 2) \/
  (raw_arctan g X C = NaN /\ g * X = 0 /\ X ^ 2 + C ^ 2 - (g / 2) ^ 2 = 0).
Proof.
  unfold raw_arctan.
  destruct (Req_dec_T (X ^ 2 + C ^ 2 - (g / 2) ^ 2) 0) as [Hd | Hd].
  - rewrite (angle_ratio_singular _ _ _ Hd). unfold Rsign.
    pose proof PI_RGT_0 as Hpi.
    destruct (total_order_T (g * X) 0) as [[Hlt | Heq] | Hgt]; simpl.
    + left. eexists. split; [reflexivity | lra].
    + right. auto.
    + left. eexists. split; [reflexivity | lra].
  - rewrite (angle_ratio_regular _ _ _ Hd). cbn [np_arctan]. left.
    eexists. split; [reflexivity |].
    pose proof (atan_bound (g * X / (X ^ 2 + C ^ 2 - (g / 2) ^ 2))). lra.
Qed.

Lemma raw_arctan_origin (g : R) : g <> 0 -> raw_arctan g 0 0 = Num 0.
Proof.
  intros Hg. unfold raw_arctan.
  rewrite angle_ratio_regular.
  - cbn [np_arctan].
    replace (g * 0 / (0 ^ 2 + 0 ^ 2 - (g / 2) ^ 2)) with 0
      by (unfold Rdiv; ring).
    now rewrite atan_0.
  - intros H. apply Hg. nra.
Qed.

(** ** The shooting angle *)

(** The branch [np.where] takes, read off a finite raw arctangent. *)
Lemma shotAngle_of_raw (g X C a : R) :
  raw_arctan g X C = Num a ->
  (0 < a -> shotAngle g X C = Num a) /\
  (a <= 0 -> shotAngle g X C = Num (a + PI)).
Proof.
  intros Ha. unfold shotAngle. rewrite Ha. split; intros H.
  - now rewrite np_gt_Num_true.
  - now rewrite np_gt_Num_false.
Qed.

Lemma raw_arctan_nan_iff (g X C : R) :
  raw_arctan g X C = NaN <->
  g * X = 0 /\ X ^ 2 + C ^ 2 - (g / 2) ^ 2 = 0.
Proof.
  split.
  - intros Hnan. destruct (raw_arctan_cases g X C) as [[a [Ha _]] | [_ H]].
    + congruence.
    + exact H.
  - intros [Hn Hd]. unfold raw_arctan.
    rewrite (angle_ratio_singular _ _ _ Hd), Hn, Rsign_zero. reflexivity.
Qed.

Lemma shotAngle_range (g X C : R) :
  raw_arctan g X C <> NaN ->
  exists a, shotAngle g X C = Num a /\ 0 < a <= PI.
Proof.
  intros Hnn. pose proof PI_RGT_0 as Hpi.
  destruct (raw_arctan_cases g X C) as [[a [Ha Hb]] | [H _]].
  - destruct (shotAngle_of_raw g X C a Ha) as [Hp Hn].
    destruct (Rlt_le_dec 0 a) as [Hpos | Hle].
    + exists a. split; [now apply Hp | lra].
    + exists (a + PI). split; [now apply Hn | lra].
  - contradiction.
Qed.

(** The branches of [np.where] as written: the raw arctangent when it is
    positive, the raw arctangent plus pi when it is negative or zero;
    where the raw value is negative this differs from its absolute value
    unless the quotient is infinite; the result is NaN exactly at [0 / 0]
    and otherwise lies in the half-open interval from 0 (excluded) to pi
    (included). *)
Lemma shotAngle_branches (g X C : R) :
  (forall a, raw_arctan g X C = Num a ->
     (0 < a -> shotAngle g X C = Num a) /\
     (a <= 0 -> shotAngle g X C = Num (a + PI)) /\
     (a < 0 -> - PI / 2 < a -> shotAngle g X C <> Num (Rabs a))) /\
  (raw_arctan g X C = NaN <->
     g * X = 0 /\ X ^ 2 + C ^ 2 - (g / 2) ^ 2 = 0) /\
  (raw_arctan g X C = NaN -> shotAngle g X C = NaN) /\
  (raw_arctan g X C <> NaN ->
     exists a, shotAngle g X C = Num a /\ 0 < a <= PI).
Proof.
  split; [| split; [| split]].
  - intros a Ha. destruct (shotAngle_of_raw g X C a Ha) as [Hp Hn].
    split; [exact Hp | split; [exact Hn |]].
    intros Hneg Hlow Heq. rewrite Hn in Heq by lra.
    injection Heq as Heq. rewrite Rabs_left in Heq by exact Hneg. lra.
  - apply raw_arctan_nan_iff.
  - intros Hnan. unfold shotAngle. rewrite Hnan. reflexivity.
  - apply shotAngle_range.
Qed.

Lemma IZR_sq (z : Z) : IZR (z ^ 2) = IZR z ^ 2.
Proof. now rewrite pow_IZR. Qed.

(** The divisor in the loop that fills [pgoal_2d] is an integer minus
    [3.66 ** 2 = 13.3956], hence never zero: the loop's division does not
    raise. *)
Lemma pgoal_divisor_nonzero (x y : Z) :
  IZR (x ^ 2) + Rabs (IZR y - 68 / 2) ^ 2 - (goal_width / 2) ^ 2 <> 0.
Proof.
  rewrite pow2_abs. unfold goal_width. intros H.
  assert (Hy : (IZR y - 68 / 2) ^ 2 = IZR ((y - 34) ^ 2)).
  { rewrite IZR_sq, minus_IZR. f_equal. lra. }
  rewrite Hy in H.
  assert (Hz : IZR ((x ^ 2 + (y - 34) ^ 2) * 2500) = IZR 33489).
  { rewrite mult_IZR, plus_IZR. lra. }
  apply eq_IZR in Hz. lia.
Qed.

(** The two branch conditions, [raw > 0] of [np.where] and [a < 0] of the
    scalar loop, select the same value wherever the quotient is a nonzero
    number. *)
Lemma angle_policies_agree (g X C : R) :
  g * X <> 0 ->
  X ^ 2 + C ^ 2 - (g / 2) ^ 2 <> 0 ->
  shotAngle g X C =
    (let a := np_arctan (Num (g * X / (X ^ 2 + C ^ 2 - (g / 2) ^ 2))) in
     if np_lt a (Num 0) then np_add np_pi a else a).
Proof.
  intros Hn Hd. unfold shotAngle, raw_arctan.
  rewrite (angle_ratio_regular _ _ _ Hd).
  set (q := g * X / (X ^ 2 + C ^ 2 - (g / 2) ^ 2)).
  assert (Hq : q <> 0).
  { unfold q. intros H. apply Hn.
    apply (Rmult_eq_compat_r (X ^ 2 + C ^ 2 - (g / 2) ^ 2)) in H.
    unfold Rdiv in H. rewrite Rmult_assoc, Rinv_l, Rmult_1_r, Rmult_0_l in H
      by exact Hd. exact H. }
  cbn [np_arctan]. unfold np_lt.
  destruct (Rtotal_order q 0) as [Hlt | [Heq | Hgt]]; [| contradiction |].
  - apply atan_neg in Hlt.
    rewrite np_gt_Num_false by lra. rewrite np_gt_Num_true by lra.
    simpl. f_equal. ring.
  - apply atan_pos in Hgt.
    rewrite np_gt_Num_true by lra. rewrite np_gt_Num_false by lra.
    reflexivity.
Qed.

(** C1 (the code at the failing input): for a shot from the goal line at
    the corner, [X = 0], [C = 34], the raw arctangent is
    [atan(7.32 * 0 / (0 + 34**2 - 3.66**2)) = 0], which is not negative;
    the [Angle] column nevertheless holds the raw value plus pi, because
    [np.where] tests [raw > 0], while the scalar loop at the same
    location (cell [x = 0], [y = 0]), which tests [a < 0], returns 0. *)
Theorem shots_Angle_on_goal_line :
  raw_arctan goal_width 0 34
  = Num (atan (goal_width * 0
               / (0 ^ 2 + 34 ^ 2 - (goal_width / 2) ^ 2))) /\
  atan (goal_width * 0 / (0 ^ 2 + 34 ^ 2 - (goal_width / 2) ^ 2)) = 0 /\
  shots_Angle 0 34 = Num PI /\
  pgoal_angle 0 0 = Return (Num 0).
Proof.
  assert (Hd : 0 ^ 2 + 34 ^ 2 - (goal_width / 2) ^ 2 <> 0)
    by (unfold goal_width; lra).
  assert (Hraw : raw_arctan goal_width 0 34
                 = Num (atan (goal_width * 0
                              / (0 ^ 2 + 34 ^ 2 - (goal_width / 2) ^ 2)))).
  { unfold raw_arctan. now rewrite (angle_ratio_regular _ _ _ Hd). }
  assert (Hzero : atan (goal_width * 0
                        / (0 ^ 2 + 34 ^ 2 - (goal_width / 2) ^ 2)) = 0).
  { replace (goal_width * 0 / _) with 0 by (unfold Rdiv; ring).
    apply atan_0. }
  split; [exact Hraw | split; [exact Hzero | split]].
  - unfold shots_Angle, shotAngle. rewrite Hraw, Hzero.
    rewrite np_gt_Num_false by lra. cbn [np_add np_pi]. f_equal. ring.
  - unfold pgoal_angle.
    destruct (Req_dec_T _ 0) as [H0 | _];
      [now apply pgoal_divisor_nonzero in H0 |].
    cbn [np_arctan]. unfold np_lt.
    replace (goal_width * 0 / _) with 0 by (unfold Rdiv; ring).
    rewrite atan_0, np_gt_Num_false by lra. reflexivity.
Qed.

(** C2 (the code at the failing input): at [X = 0], [C = 0] the raw
    arctangent is [atan(0 / -(g/2)**2) = 0]; the scalar loop for
    [pgoal_2d] (cell [x = 0], [y = 34]), whose condition is [a < 0],
    returns 0 without the correction, as the claim says, but the [Angle]
    column, whose condition is [raw > 0], takes the add-pi branch and
    holds pi. *)
Theorem angle_at_origin :
  raw_arctan goal_width 0 0 = Num 0 /\
  shots_Angle 0 0 = Num PI /\
  pgoal_angle 0 34 = Return (Num 0).
Proof.
  assert (Hraw : raw_arctan goal_width 0 0 = Num 0).
  { apply raw_arctan_origin. unfold goal_width. lra. }
  split; [exact Hraw | split].
  - unfold shots_Angle, shotAngle. rewrite Hraw.
    rewrite np_gt_Num_false by lra. simpl. f_equal. ring.
  - unfold pgoal_angle.
    destruct (Req_dec_T _ 0) as [Hd | Hd].
    + now apply pgoal_divisor_nonzero in Hd.
    + cbn [np_arctan]. unfold np_lt.
      replace (goal_width * 0 / _) with 0 by (unfold Rdiv; ring).
      rewrite atan_0, np_gt_Num_false by lra. reflexivity.
Qed.

(** C6: for every shot location with [X > 0] (and a positive goal width)
    the angle is a number strictly between 0 and pi. *)
Theorem shotAngle_open_interval (g X C : R) :
  0 < g -> 0 < X ->
  exists a, shotAngle g X C = Num a /\ 0 < a < PI.
Proof.
  intros Hg HX. pose proof PI_RGT_0 as Hpi.
  assert (Hn : 0 < g * X) by now apply Rmult_lt_0_compat.
  destruct (Req_dec_T (X ^ 2 + C ^ 2 - (g / 2) ^ 2) 0) as [Hd | Hd].
  - unfold shotAngle, raw_arctan.
    rewrite (angle_ratio_singular _ _ _ Hd), (Rsign_pos _ Hn).
    cbn [inf_of_sign np_arctan]. rewrite np_gt_Num_true by lra.
    exists (PI / 2). split; [reflexivity | lra].
  - rewrite angle_policies_agree by (try exact Hd; lra).
    set (q := g * X / (X ^ 2 + C ^ 2 - (g / 2) ^ 2)).
    cbn [np_arctan]. cbv zeta. unfold np_lt.
    pose proof (atan_bound q) as Hb.
    destruct (Rlt_le_dec (atan q) 0) as [Hlt | Hge].
    + rewrite np_gt_Num_true by lra.
      exists (PI + atan q). split; [reflexivity | lra].
    + rewrite np_gt_Num_false by lra.
      exists (atan q). split; [reflexivity |]. split; [| lra].
      destruct Hge as [Hgt | Heq]; [exact Hgt |].
      exfalso. assert (Hq : q <> 0).
      { unfold q. intros H.
        apply (Rmult_eq_compat_r (X ^ 2 + C ^ 2 - (g / 2) ^ 2)) in H.
        unfold Rdiv in H.
        rewrite Rmult_assoc, Rinv_l, Rmult_1_r, Rmult_0_l in H by exact Hd.
        lra. }
      destruct (Rtotal_order q 0) as [H | [H | H]]; [| contradiction |].
      * apply atan_neg in H. lra.
      * apply atan_pos in H. lra.
Qed.

Lemma shotAngle_open_interval_witness :
  exists a, shotAngle goal_width 11 0 = Num a /\ 0 < a < PI.
Proof.
  apply (shotAngle_open_interval goal_width 11 0); unfold goal_width; lra.
Defined.

(** C10: for every cell of the grid with [x > 0] the scalar loop (pi is
    added only when the arctangent is strictly negative) does not raise
    and returns the very angle the vectorised column (pi is added when the
    arctangent is not strictly positive) holds at [X = x],
    [C = abs(y - 68/2)]. *)
Theorem pgoal_angle_agrees_with_shots_Angle (x y : Z) :
  (0 < x)%Z ->
  pgoal_angle x y =
    Return (shots_Angle (IZR x) (Rabs (IZR y - 68 / 2))).
Proof.
  intros Hx. unfold pgoal_angle, shots_Angle.
  pose proof (pgoal_divisor_nonzero x y) as Hd.
  rewrite IZR_sq in *.
  destruct (Req_dec_T _ 0) as [H0 | _]; [contradiction |].
  rewrite angle_policies_agree; [reflexivity | | exact Hd].
  apply IZR_lt in Hx. unfold goal_width. nra.
Qed.

Lemma pgoal_angle_agrees_with_shots_Angle_witness :
  pgoal_angle 11 34 = Return (shots_Angle (IZR 11) (Rabs (IZR 34 - 68 / 2))).
Proof.
  apply (pgoal_angle_agrees_with_shots_Angle 11 34). reflexivity.
Defined.

(** ** The logistic probability *)

Lemma pow2_pos (n : nat) : 0 < 2 ^ n.
Proof. apply pow_lt. lra. Qed.

Lemma pow2_ge_1 (n : nat) : 1 <= 2 ^ n.
Proof. apply pow_R1_Rle. lra. Qed.

Lemma half_ulp_bounds : 0 < half_ulp < 1.
Proof.
  unfold half_ulp. pose proof (pow2_pos 53) as Hp. split.
  - now apply Rinv_0_lt_compat.
  - rewrite <- Rinv_1. apply Rinv_lt_contravar; [lra |].
    change (2 ^ 53) with (2 * 2 ^ 52). pose proof (pow2_ge_1 52). lra.
Qed.

Lemma exp_underflow_le_half_ulp : exp_underflow <= half_ulp.
Proof.
  unfold exp_underflow, half_ulp.
  apply Rinv_le_contravar; [apply pow2_pos |].
  apply Rle_pow; [lra | lia].
Qed.

Lemma exp_overflow_ge_1 : 1 <= exp_overflow.
Proof. apply pow2_ge_1. Qed.

Lemma exp_nat_ge_pow2 (n : nat) : 2 ^ n <= exp (INR n).
Proof.
  induction n as [| n IH].
  - cbn. rewrite exp_0. lra.
  - rewrite S_INR, exp_plus. cbn [pow].
    pose proof (exp_ineq1 1 ltac:(lra)) as H1.
    pose proof (pow2_pos n). pose proof (exp_pos (INR n)). nra.
Qed.

(** [np.exp] overflows at every integer from 1024 on. *)
Lemma exp_overflows_at (z : Z) : (1024 <= z)%Z -> exp_overflow <= exp (IZR z).
Proof.
  intros Hz. rewrite <- (Z2Nat.id z) by lia. rewrite <- INR_IZR_INZ.
  apply Rle_trans with (2 ^ Z.to_nat z); [| apply exp_nat_ge_pow2].
  unfold exp_overflow. apply Rle_pow; [lra | lia].
Qed.

(** The exponential of an integer up to -53 is absorbed by the 1. *)
Lemma exp_absorbed_at (z : Z) : (z <= -53)%Z -> exp (IZR z) <= half_ulp.
Proof.
  intros Hz. replace z with (- Z.of_nat (Z.to_nat (- z)))%Z by lia.
  rewrite opp_IZR, <- INR_IZR_INZ, exp_Ropp. unfold half_ulp.
  apply Rinv_le_contravar; [apply pow2_pos |].
  apply Rle_trans with (2 ^ Z.to_nat (- z)); [| apply exp_nat_ge_pow2].
  apply Rle_pow; [lra | lia].
Qed.

Lemma logistic_value_bounds (t : R) : 0 < 1 / (1 + exp t) < 1.
Proof.
  pose proof (exp_pos t) as He.
  assert (Hd : 0 < 1 + exp t) by lra.
  split.
  - apply Rdiv_lt_0_compat; lra.
  - apply (Rmult_lt_reg_r (1 + exp t)); [exact Hd |].
    unfold Rdiv. rewrite Rmult_assoc, Rinv_l by lra. lra.
Qed.

Lemma logistic_value_decreasing (t1 t2 : R) :
  t1 < t2 -> 1 / (1 + exp t2) < 1 / (1 + exp t1).
Proof.
  intros Ht. pose proof (exp_pos t1). pose proof (exp_increasing _ _ Ht).
  unfold Rdiv. rewrite !Rmult_1_l.
  apply Rinv_lt_contravar; [apply Rmult_lt_0_compat |]; lra.
Qed.

(** The three regimes of [1/(1+np.exp(t))] on a finite [t]: the
    exponential is absorbed (the value is exactly 1), it is an ordinary
    number, or it overflows (the value is exactly 0). *)
Lemma logistic_cases (t : R) :
  (exp t <= half_ulp /\ logistic (Num t) = Num 1) \/
  (half_ulp < exp t < exp_overflow /\
   logistic (Num t) = Num (1 / (1 + exp t))) \/
  (exp_overflow <= exp t /\ logistic (Num t) = Num 0).
Proof.
  pose proof half_ulp_bounds as Hh. pose proof exp_underflow_le_half_ulp as Hu.
  pose proof (exp_pos t) as He.
  assert (Hone : np_div (Num 1) (Num 1) = Num 1).
  { rewrite np_div_Num by lra. f_equal. field. }
  unfold logistic, np_exp.
  destruct (Rle_dec exp_overflow (exp t)) as [Ho | Ho].
  - right; right. split; [exact Ho | reflexivity].
  - destruct (Rle_dec (exp t) exp_underflow) as [Hlow | Hlow].
    + left. split; [lra |]. unfold one_plus.
      destruct (Rle_dec 0 0) as [_ | H0]; [| lra].
      destruct (Rle_dec 0 half_ulp) as [_ | H0]; [exact Hone | lra].
    + unfold one_plus.
      destruct (Rle_dec 0 (exp t)) as [_ | H0]; [| lra].
      destruct (Rle_dec (exp t) half_ulp) as [Ha | Ha].
      * left. split; [exact Ha | exact Hone].
      * right; left. split; [lra |]. apply np_div_Num. lra.
Qed.


Lemma logistic_absorbed (t : R) :
  exp t <= half_ulp -> logistic (Num t) = Num 1.
Proof.
  intros Ha. pose proof half_ulp_bounds as Hh.
  pose proof exp_overflow_ge_1 as H1.
  destruct (logistic_cases t) as [[_ Hv] | [[Hm _] | [Ho _]]];
    [exact Hv | lra | lra].
Qed.

(** The value on a finite [t]: a number of the closed unit interval,
    0 exactly on overflow and 1 exactly on absorption. *)
Lemma logistic_Num_range (t : R) :
  exists p, logistic (Num t) = Num p /\ 0 <= p <= 1 /\
            (p = 0 <-> exp_overflow <= exp t) /\
            (p = 1 <-> exp t <= half_ulp).
Proof.
  pose proof half_ulp_bounds as Hh. pose proof exp_overflow_ge_1 as Ho.
  pose proof (logistic_value_bounds t) as Hb.
  destruct (logistic_cases t) as [[Ha ->] | [[Hm ->] | [Hov ->]]];
    eexists; (split; [reflexivity |]).
  - split; [lra |]. split; split; intros; lra.
  - split; [lra |]. split; split; intros; lra.
  - split; [lra |]. split; split; intros; lra.
Qed.

(** A larger finite [t] never gives a larger value. *)
Lemma logistic_nonincreasing (t1 t2 : R) :
  t1 <= t2 ->
  exists p1 p2,
    logistic (Num t1) = Num p1 /\ logistic (Num t2) = Num p2 /\ p2 <= p1.
Proof.
  intros Ht. pose proof half_ulp_bounds as Hh.
  pose proof exp_overflow_ge_1 as Ho.
  assert (He : exp t1 <= exp t2).
  { destruct Ht as [Ht | ->]; [| lra]. apply exp_increasing in Ht. lra. }
  pose proof (logistic_value_bounds t1) as Hb1.
  pose proof (logistic_value_bounds t2) as Hb2.
  destruct (logistic_cases t1) as [[H1 ->] | [[H1 ->] | [H1 ->]]];
    destruct (logistic_cases t2) as [[H2 ->] | [[H2 ->] | [H2 ->]]];
    do 2 eexists; (split; [reflexivity | split; [reflexivity |]]);
    try lra.
  destruct Ht as [Ht | ->]; [| lra].
  apply logistic_value_decreasing in Ht. lra.
Qed.

Lemma logistic_NegInf : logistic NegInf = Num 1.
Proof.
  pose proof half_ulp_bounds as Hh.
  unfold logistic. cbn [np_exp]. unfold one_plus.
  destruct (Rle_dec 0 0) as [_ | H0]; [| lra].
  destruct (Rle_dec 0 half_ulp) as [_ | H0]; [| lra].
  rewrite np_div_Num by lra. f_equal. field.
Qed.


(** On finite coefficients and features the loop runs to its end, raising
    nothing, and leaves a finite sum. *)
Lemma bsum_loop_finite (b : list npfloat) (sh : row) (vars : list string) :
  forall (i : nat) (acc : R),
    (forall j, (i < j <= i + length vars)%nat ->
               exists r, b !! j = Some (Num r)) ->
    has_features vars sh ->
    exists t, bsum_loop b sh i vars (Num acc) = Return (Num t).
Proof.
  induction vars as [| v vars IH]; intros i acc Hb Hsh.
  - exists acc. reflexivity.
  - cbn [bsum_loop].
    destruct (Hb (i + 1)%nat) as [bi Hbi]; [cbn [length]; lia |].
    destruct (Hsh v) as [x Hx]; [now left |].
    unfold param, getitem. rewrite Hbi, Hx. cbn [py_bind np_mul np_add].
    apply IH.
    + intros j Hj. apply Hb. cbn [length]. lia.
    + intros w Hw. apply Hsh. now right.
Qed.

Lemma linear_predictor_finite (vars : list string) (b : list npfloat)
    (sh : row) :
  has_params vars b -> has_features vars sh ->
  exists t, linear_predictor vars b sh = Return (Num t).
Proof.
  intros Hb Hsh. unfold linear_predictor, param.
  destruct (Hb 0%nat) as [b0 Hb0]; [lia |].
  rewrite Hb0. cbn [py_bind].
  apply bsum_loop_finite; [| exact Hsh].
  intros j Hj. apply Hb. lia.
Qed.

(** Scoring one finite row with finite coefficients: nothing is raised
    and the result is the logistic value of the linear predictor. *)
Lemma calculate_xG_scores (vars : list string) (b : list npfloat)
    (sh : row) :
  has_params vars b -> has_features vars sh ->
  exists t p,
    linear_predictor vars b sh = Return (Num t) /\
    calculate_xG vars b sh = Return (Num p) /\
    0 <= p <= 1 /\
    (p = 0 <-> exp_overflow <= exp t) /\
    (p = 1 <-> exp t <= half_ulp).
Proof.
  intros Hb Hsh.
  destruct (linear_predictor_finite vars b sh Hb Hsh) as [t Ht].
  destruct (logistic_Num_range t) as (p & Hp & Hrange & H0 & H1).
  exists t, p. unfold calculate_xG. rewrite Ht. cbn [py_bind]. rewrite Hp.
  auto.
Qed.

(** On an infinite linear predictor the probability is exactly 0 or
    exactly 1 as well. *)
Remark logistic_saturated : logistic PosInf = Num 0 /\ logistic NegInf = Num 1.
Proof. split; [reflexivity | apply logistic_NegInf]. Qed.





(** C9, as stated, fails: the linear predictors -54 and -53 differ, yet
    both exponentials are absorbed by the 1 and both probabilities are
    exactly 1. *)
Lemma calculate_xG_plateau :
  ~ (forall (vars1 vars2 : list string) (b1 b2 : list npfloat)
            (sh1 sh2 : row) (t1 t2 : R),
        linear_predictor vars1 b1 sh1 = Return (Num t1) ->
        linear_predictor vars2 b2 sh2 = Return (Num t2) ->
        t1 < t2 ->
        exists p1 p2,
          calculate_xG vars1 b1 sh1 = Return (Num p1) /\
          calculate_xG vars2 b2 sh2 = Return (Num p2) /\
          p2 < p1).
Proof.
  intros H.
  destruct (H [] [] [Num (-54)] [Num (-53)] ∅ ∅ (-54) (-53))
    as (p1 & p2 & H1 & H2 & Hlt); [reflexivity | reflexivity | lra |].
  change (calculate_xG [] [Num (-54)] ∅)
    with (Return (logistic (Num (IZR (-54))))) in H1.
  change (calculate_xG [] [Num (-53)] ∅)
    with (Return (logistic (Num (IZR (-53))))) in H2.
  rewrite logistic_absorbed in H1 by (apply exp_absorbed_at; lia).
  rewrite logistic_absorbed in H2 by (apply exp_absorbed_at; lia).
  injection H1 as <-. injection H2 as <-. lra.
Qed.

(** C9 (amended): the probability is non-increasing in the linear
    predictor: of two scored rows, the one with the larger (finite)
    linear predictor gets a probability that is at most that of the
    other; it need not be smaller, the probability has plateaus. *)
Theorem calculate_xG_nonincreasing
    (vars1 vars2 : list string) (b1 b2 : list npfloat) (sh1 sh2 : row)
    (t1 t2 : R) :
  linear_predictor vars1 b1 sh1 = Return (Num t1) ->
  linear_predictor vars2 b2 sh2 = Return (Num t2) ->
  t1 <= t2 ->
  exists p1 p2,
    calculate_xG vars1 b1 sh1 = Return (Num p1) /\
    calculate_xG vars2 b2 sh2 = Return (Num p2) /\
    p2 <= p1.
Proof.
  intros H1 H2 Ht. unfold calculate_xG. rewrite H1, H2.
  cbn [py_bind].
  destruct (logistic_nonincreasing t1 t2 Ht) as (p1 & p2 & -> & -> & Hle).
  exists p1, p2. auto.
Qed.

Lemma calculate_xG_nonincreasing_witness :
  exists p1 p2,
    calculate_xG ["Angle"] [Num 3; Num (-3)] {["Angle" := Num 1]}
      = Return (Num p1) /\
    calculate_xG ["Angle"] [Num 3; Num (-3)] {["Angle" := Num 0]}
      = Return (Num p2) /\
    p2 <= p1.
Proof.
  apply (calculate_xG_nonincreasing
           ["Angle"] ["Angle"] [Num 3; Num (-3)] [Num 3; Num (-3)]
           {["Angle" := Num 1]} {["Angle" := Num 0]}
           (3 + -3 * 1) (3 + -3 * 0)).
  - reflexivity.
  - reflexivity.
  - lra.
Defined.

(** ** McFadden's pseudo R squared *)

(** C4, as stated, fails: on a zero null log-likelihood nothing is
    raised. *)
Lemma pseudoR2_zero_null_does_not_raise :
  ~ (forall llf llnull : R,
        (llnull <> 0 ->
         pseudoR2 (Num llf) (Num llnull) = Return (Num (1 - llf / llnull))) /\
        ((exists e, pseudoR2 (Num llf) (Num llnull) = Raise e) <->
         llnull = 0)).
Proof.
  intros H. destruct (H (-1) 0) as [_ [_ Hraise]].
  destruct (Hraise eq_refl) as [e He]. discriminate He.
Qed.

(** C4 (amended): [pseudoR2] returns 1 minus the quotient of the fitted
    by the null log-likelihood whenever the null log-likelihood is
    nonzero; when it is zero no error is raised: the value returned is
    the non-finite outcome of the NumPy division (an infinity, or NaN for
    [0 / 0]). *)
Theorem pseudoR2_value (llf llnull : R) :
  (llnull <> 0 ->
   pseudoR2 (Num llf) (Num llnull) = Return (Num (1 - llf / llnull))) /\
  (llnull = 0 ->
   exists v, pseudoR2 (Num llf) (Num llnull) = Return v /\ ~ is_finite v) /\
  (forall e, pseudoR2 (Num llf) (Num llnull) <> Raise e).
Proof.
  split; [| split].
  - intros Hn. unfold pseudoR2, np_sub. rewrite np_div_Num by exact Hn.
    reflexivity.
  - intros ->. unfold pseudoR2, np_sub. rewrite np_div_zero.
    destruct (Rsign llf); cbn [inf_of_sign np_neg np_add];
      eexists; (split; [reflexivity | cbn; tauto]).
  - intros e. discriminate.
Qed.

(** ** The ROC counting loop *)

(** One shot moves exactly one counter of its own class. *)
Lemma count_shot_totals (th : npfloat) (c : counts) (s : shot) :
  TP (count_shot th c s) + FN (count_shot th c s)
    = TP c + FN c + (if (Goal s =? 1)%Z then 1 else 0) /\
  FP (count_shot th c s) + TN (count_shot th c s)
    = FP c + TN c + (if (Goal s =? 0)%Z then 1 else 0) /\
  (nonneg_counts c -> nonneg_counts (count_shot th c s)).
Proof.
  unfold count_shot, nonneg_counts.
  destruct (Goal s =? 1)%Z, (Goal s =? 0)%Z, (np_gt (xG s) th);
    cbn [TP FP TN FN]; repeat split; try lra; intuition lra.
Qed.

Lemma fold_count_totals (th : npfloat) (shots : list shot) :
  forall c : counts,
    let c' := fold_left (count_shot th) shots c in
    TP c' + FN c' = TP c + FN c + INR (count_label 1 shots) /\
    FP c' + TN c' = FP c + TN c + INR (count_label 0 shots) /\
    (nonneg_counts c -> nonneg_counts c').
Proof.
  induction shots as [| s shots IH]; intros c; cbn zeta.
  - unfold count_label. cbn [fold_left List.filter length INR].
    split; [lra | split; [lra | auto]].
  - cbn [fold_left].
    destruct (IH (count_shot th c s)) as (Hp & Hn & Hnn).
    destruct (count_shot_totals th c s) as (Hp1 & Hn1 & Hnn1).
    cbn zeta in Hp, Hn, Hnn.
    rewrite Hp, Hn, Hp1, Hn1. unfold count_label in *. cbn [List.filter].
    split; [| split].
    + destruct (Goal s =? 1)%Z; cbn [length]; rewrite ?S_INR; lra.
    + destruct (Goal s =? 0)%Z; cbn [length]; rewrite ?S_INR; lra.
    + auto.
Qed.

(** The counters of a threshold: the two of each class add up to the size
    of the class, and none is negative. *)
Lemma roc_counts_totals (th : npfloat) (shots : list shot) :
  let c := roc_counts th shots in
  TP c + FN c = INR (count_label 1 shots) /\
  FP c + TN c = INR (count_label 0 shots) /\
  nonneg_counts c.
Proof.
  cbn zeta. unfold roc_counts.
  destruct (fold_count_totals th shots zeros) as (Hp & Hn & Hnn).
  cbn zeta in Hp, Hn, Hnn. cbn [zeros TP FP TN FN] in Hp, Hn.
  split; [lra | split; [lra |]].
  apply Hnn. unfold nonneg_counts, zeros. cbn [TP FP TN FN]. lra.
Qed.

(** A NumPy rate [a / (a + b)] of nonnegative counters: NaN exactly when
    the class is empty, an ordinary quotient otherwise. *)
Lemma rate_cases (a b : R) :
  0 <= a -> 0 <= b ->
  (a + b = 0 -> np_div (Num a) (Num (a + b)) = NaN) /\
  (a + b <> 0 -> np_div (Num a) (Num (a + b)) = Num (a / (a + b))).
Proof.
  intros Ha Hb. split.
  - intros H0. rewrite H0, np_div_zero.
    replace a with 0 by lra. now rewrite Rsign_zero.
  - intros Hn. now apply np_div_Num.
Qed.

Lemma roc_point_rates (th : npfloat) (shots : list shot) :
  let c := roc_counts th shots in
  rate_is (FP c) (FP c + TN c) (fst (roc_point th shots)) /\
  rate_is (TP c) (TP c + FN c) (snd (roc_point th shots)).
Proof.
  cbn zeta. destruct (roc_counts_totals th shots) as (_ & _ & Hnn).
  cbn zeta in Hnn. destruct Hnn as (Htp & Hfp & Htn & Hfn).
  unfold roc_point, rate_is. cbn [fst snd].
  split; apply rate_cases; assumption.
Qed.

(** C7: the curve has one point per threshold and computing it raises
    nothing; at every threshold a rate whose class is absent
    ([TP + FN = 0], no shot labelled 1, or [FP + TN = 0], no shot
    labelled 0) is NaN, and every other rate is the ordinary real quotient
    of the counters. *)
Theorem roc_curve_rates (shots : list shot) :
  length (roc_curve shots) = numobs /\
  Forall (fun pt =>
            exists th, In th thresholds /\ pt = roc_point th shots /\
              let c := roc_counts th shots in
              rate_is (FP c) (FP c + TN c) (fst pt) /\
              rate_is (TP c) (TP c + FN c) (snd pt) /\
              FP c + TN c = INR (count_label 0 shots) /\
              TP c + FN c = INR (count_label 1 shots))
         (roc_curve shots).
Proof.
  split.
  - unfold roc_curve, thresholds. now rewrite !length_map, length_seq.
  - apply List.Forall_forall. intros pt Hin. unfold roc_curve in Hin.
    apply in_map_iff in Hin. destruct Hin as (th & <- & Hth).
    exists th. split; [exact Hth | split; [reflexivity |]].
    cbn zeta. destruct (roc_point_rates th shots) as (Hf & Ht).
    destruct (roc_counts_totals th shots) as (Hp & Hn & _).
    cbn zeta in Hf, Ht, Hp, Hn. auto.
Qed.

(** When every shot is classified positive the two "negative" counters
    are never touched. *)
Lemma fold_all_positive (th : npfloat) (shots : list shot) :
  (forall s, In s shots -> np_gt (xG s) th = true) ->
  forall c : counts,
    FN (fold_left (count_shot th) shots c) = FN c /\
    TN (fold_left (count_shot th) shots c) = TN c.
Proof.
  induction shots as [| s shots IH]; intros Hall c.
  - cbn. auto.
  - cbn [fold_left].
    destruct (IH (fun s' H => Hall s' (or_intror H)) (count_shot th c s))
      as (Hfn & Htn).
    rewrite Hfn, Htn. unfold count_shot.
    rewrite (Hall s (or_introl eq_refl)).
    destruct (Goal s =? 1)%Z, (Goal s =? 0)%Z; cbn [TP FP TN FN]; auto.
Qed.

Lemma count_label_pos (l : Z) (shots : list shot) :
  (exists s, In s shots /\ Goal s = l) -> 0 < INR (count_label l shots).
Proof.
  intros (s & Hin & Hl). unfold count_label.
  assert (Hf : In s (List.filter (fun s => (Goal s =? l)%Z) shots)).
  { apply filter_In. split; [exact Hin | now apply Z.eqb_eq]. }
  destruct (List.filter _ shots) as [| s' rest]; [destruct Hf |].
  cbn [length]. rewrite S_INR. pose proof (pos_INR (length rest)). lra.
Qed.

(** The ROC point of a threshold below every probability, with both
    classes present. *)
Lemma roc_point_all_positive (th : npfloat) (shots : list shot) :
  (forall s, In s shots -> np_gt (xG s) th = true) ->
  (exists s, In s shots /\ Goal s = 1%Z) ->
  (exists s, In s shots /\ Goal s = 0%Z) ->
  roc_point th shots = (Num 1, Num 1).
Proof.
  intros Hall Hpos Hneg.
  destruct (roc_counts_totals th shots) as (Hp & Hn & _).
  cbn zeta in Hp, Hn.
  destruct (fold_all_positive th shots Hall zeros) as (Hfn & Htn).
  fold (roc_counts th shots) in Hfn, Htn. cbn [zeros FN TN] in Hfn, Htn.
  apply count_label_pos in Hpos, Hneg.
  unfold roc_point. rewrite !np_div_Num by lra.
  rewrite Hfn, Htn in *. f_equal; f_equal; field; lra.
Qed.

(** Scoring finite rows with finite parameters raises nothing; every row
    keeps its label and gets a probability of the closed unit interval. *)
Lemma assign_xG_scores (b : list npfloat) (rows : list shot_row) :
  has_params model_variables b ->
  Forall (fun r => has_features model_variables (row_cols r)) rows ->
  exists shots,
    assign_xG b rows = Return shots /\
    Forall2 (fun r s => Goal s = row_Goal r /\
                        exists p, xG s = Num p /\ 0 <= p <= 1) rows shots.
Proof.
  intros Hb Hrows. induction Hrows as [| r rows Hr _ IH].
  - exists []. split; [reflexivity | constructor].
  - destruct IH as (shots & Hs & Hall).
    destruct (calculate_xG_scores _ _ _ Hb Hr)
      as (t & p & _ & Hp & Hrange & _).
    exists (mkShot (row_Goal r) (Num p) :: shots).
    cbn [assign_xG]. rewrite Hp, Hs. cbn [py_bind].
    split; [reflexivity |]. constructor; [| exact Hall].
    cbn [Goal xG]. eauto.
Qed.

(** The first threshold of the sweep is 0. *)
Lemma thresholds_first : thresholds !! 0%nat = Some (Num 0).
Proof.
  change (thresholds !! 0%nat)
    with (Some (Num (0 + INR 0 * (1 / INR numobs)))).
  do 2 f_equal. cbn [INR]. lra.
Qed.

Lemma roc_curve_first (shots : list shot) :
  roc_curve shots !! 0%nat = Some (roc_point (Num 0) shots).
Proof.
  pose proof thresholds_first as H. unfold roc_curve.
  destruct thresholds as [| th ths]; [discriminate H |].
  cbn in H. injection H as ->. reflexivity.
Qed.

Lemma example_params_ok : has_params model_variables example_params.
Proof.
  intros j Hj. cbn [model_variables length] in Hj.
  do 8 (destruct j as [| j]; [cbn; eauto |]). lia.
Qed.

Lemma overflow_params_ok : has_params model_variables overflow_params.
Proof.
  intros j Hj. cbn [model_variables length] in Hj.
  do 8 (destruct j as [| j]; [cbn; eauto |]). lia.
Qed.

Lemma example_cols_ok : has_features model_variables example_cols.
Proof.
  intros v Hv. cbn [model_variables In] in Hv.
  repeat (destruct Hv as [<- | Hv]; [eexists; reflexivity |]).
  destruct Hv.
Qed.

(** With the overflowing coefficients the example row scores exactly 0. *)
Lemma overflow_params_score :
  calculate_xG model_variables overflow_params example_cols = Return (Num 0).
Proof.
  destruct (calculate_xG_scores model_variables overflow_params example_cols
              overflow_params_ok example_cols_ok)
    as (t & p & Ht & Hp & _ & H0 & _).
  assert (He : exists e,
             linear_predictor model_variables overflow_params example_cols
             = Return (Num e) /\ e = IZR 1024).
  { eexists. split; [reflexivity | lra]. }
  destruct He as (e & He & ->). rewrite Ht in He. injection He as ->.
  rewrite Hp. do 2 f_equal. apply H0. apply exp_overflows_at. lia.
Qed.

(** C5, as stated, fails: scored with coefficients that make [np.exp]
    overflow, a data set with a goal and a miss has every [xG] equal to
    0, nothing exceeds the threshold 0, and the ROC point of threshold 0
    is [(0, 0)], not [(1, 1)]. *)
Lemma roc_threshold_zero_with_zero_xG :
  ~ (forall (b : list npfloat) (rows : list shot_row) (shots : list shot),
        assign_xG b rows = Return shots ->
        (exists s, In s shots /\ Goal s = 1%Z) ->
        (exists s, In s shots /\ Goal s = 0%Z) ->
        roc_curve shots !! 0%nat = Some (Num 1, Num 1)).
Proof.
  intros H.
  specialize (H overflow_params example_rows
                [mkShot 1 (Num 0); mkShot 0 (Num 0)]).
  assert (Hs : assign_xG overflow_params example_rows
               = Return [mkShot 1 (Num 0); mkShot 0 (Num 0)]).
  { cbn [assign_xG example_rows row_cols row_Goal].
    rewrite overflow_params_score. reflexivity. }
  specialize (H Hs).
  assert (Hpt : roc_curve [mkShot 1 (Num 0); mkShot 0 (Num 0)] !! 0%nat
                = Some (Num 0, Num 0)).
  { rewrite roc_curve_first. f_equal.
    unfold roc_point, roc_counts. cbn [fold_left].
    unfold count_shot. cbn [Goal xG Z.eqb Pos.eqb].
    rewrite np_gt_Num_false by lra.
    cbn [TP FP TN FN zeros]. rewrite !np_div_Num by lra.
    f_equal; f_equal; lra. }
  rewrite Hpt in H.
  assert (Heq : Some (Num 0, Num 0) = Some (Num 1, Num 1)).
  { apply H.
    - exists (mkShot 1 (Num 0)). split; [now left | reflexivity].
    - exists (mkShot 0 (Num 0)). split; [right; now left | reflexivity]. }
  injection Heq as Heq _. lra.
Qed.

(** C5 (amended): for every data set that has at least one shot labelled
    1 and one labelled 0 and in which every probability is greater than 0
    the ROC point of the first threshold, 0, is [fpr = 1], [tpr = 1].
    [calculate_xG] gives a probability of 0 exactly when its exponential
    overflows. *)
Theorem roc_curve_at_threshold_zero (shots : list shot) :
  (exists s, In s shots /\ Goal s = 1%Z) ->
  (exists s, In s shots /\ Goal s = 0%Z) ->
  (forall s, In s shots -> np_gt (xG s) (Num 0) = true) ->
  thresholds !! 0%nat = Some (Num 0) /\
  roc_curve shots !! 0%nat = Some (Num 1, Num 1).
Proof.
  intros Hpos Hneg Hall. split; [apply thresholds_first |].
  rewrite roc_curve_first. f_equal.
  now apply roc_point_all_positive.
Qed.

Lemma roc_curve_at_threshold_zero_witness :
  thresholds !! 0%nat = Some (Num 0) /\
  roc_curve [mkShot 1 (Num 0.5); mkShot 0 (Num 0.25)] !! 0%nat
  = Some (Num 1, Num 1).
Proof.
  apply (roc_curve_at_threshold_zero
           [mkShot 1 (Num 0.5); mkShot 0 (Num 0.25)]).
  - exists (mkShot 1 (Num 0.5)). split; [now left | reflexivity].
  - exists (mkShot 0 (Num 0.25)). split; [right; now left | reflexivity].
  - intros s [<- | [<- | []]]; apply np_gt_Num_true; lra.
Defined.

(** ** The heat map *)


(** ** Rows derived from shot events *)

(** On the percent grid of the event data the angle is never the NaN of a
    [0 / 0] quotient. *)
Lemma event_angle_finite (ev : shot_event) :
  exists a, shots_Angle (event_X ev) (event_C ev) = Num a /\ 0 < a <= PI.
Proof.
  apply shotAngle_range. intros Hnan.
  apply raw_arctan_nan_iff in Hnan. destruct Hnan as [HX Hd].
  unfold goal_width in HX, Hd.
  assert (HX0 : event_X ev = 0) by lra.
  rewrite HX0 in Hd. unfold event_C in Hd.
  assert (Hsq : (Rabs (IZR (pos_y ev) - 50) * 68 / 100) ^ 2
                = IZR ((pos_y ev - 50) ^ 2) * (4624 / 10000)).
  { rewrite IZR_sq, minus_IZR.
    replace ((Rabs (IZR (pos_y ev) - 50) * 68 / 100) ^ 2)
      with (Rabs (IZR (pos_y ev) - 50) ^ 2 * (4624 / 10000)) by field.
    now rewrite pow2_abs. }
  rewrite Hsq in Hd.
  assert (Hz : IZR ((pos_y ev - 50) ^ 2 * 4624) = IZR 133956).
  { rewrite mult_IZR. lra. }
  apply eq_IZR in Hz. lia.
Qed.

(** Every derived row has a finite value under every model variable. *)
Lemma event_cols_features (ev : shot_event) :
  has_features model_variables (event_cols ev).
Proof.
  destruct (event_angle_finite ev) as (a & Ha & _).
  unfold event_cols. rewrite Ha.
  set (d2 := event_X ev ^ 2 + event_C ev ^ 2).
  assert (Hd2 : 0 <= d2).
  { unfold d2. pose proof (pow2_ge_0 (event_X ev)).
    pose proof (pow2_ge_0 (event_C ev)). lra. }
  assert (Hsqrt : np_sqrt (Num d2) = Num (sqrt d2)).
  { cbn [np_sqrt]. destruct (Rlt_dec d2 0); [lra | reflexivity]. }
  rewrite Hsqrt. cbn [np_mul].
  intros v Hv. cbn [model_variables In] in Hv.
  repeat (destruct Hv as [<- | Hv]; [eexists; reflexivity |]).
  destruct Hv.
Qed.

(** * Further properties of the script *)

(** ** The angle as the goal mouth seen from the shot *)

Lemma sin_atan_cos (u : R) : sin (atan u) = u * cos (atan u).
Proof.
  pose proof (atan_bound u) as Hb.
  assert (Hc : 0 < cos (atan u)) by (apply cos_gt_0; lra).
  rewrite <- (tan_atan u) at 2. unfold tan. field. lra.
Qed.

(** The cosine of the difference of two arctangents has the sign of
    [1 + u * v]. *)
Lemma cos_atan_diff (u v : R) :
  cos (atan u - atan v) = cos (atan u) * cos (atan v) * (1 + u * v).
Proof. rewrite cos_minus, !sin_atan_cos. ring. Qed.

Lemma posts_ratio (g X C : R) :
  X <> 0 -> X ^ 2 + C ^ 2 - (g / 2) ^ 2 <> 0 ->
  ((C + g / 2) / X - (C - g / 2) / X) /
    (1 + (C + g / 2) / X * ((C - g / 2) / X))
  = g * X / (X ^ 2 + C ^ 2 - (g / 2) ^ 2).
Proof.
  intros HX Hd. field. split; [| exact HX].
  intros H. apply Hd. lra.
Qed.

Lemma subtended_angle_bounds (g X C : R) :
  0 < g -> 0 < X -> 0 < subtended_angle g X C < PI.
Proof.
  intros Hg HX. unfold subtended_angle.
  assert (Huv : (C - g / 2) / X < (C + g / 2) / X).
  { apply Rmult_lt_compat_r; [now apply Rinv_0_lt_compat | lra]. }
  apply atan_increasing in Huv.
  pose proof (atan_bound ((C + g / 2) / X)).
  pose proof (atan_bound ((C - g / 2) / X)). lra.
Qed.

(** The one-arctangent formula with its correction by pi, against the
    difference of the two directions: by cases on the position of the
    shot relative to the circle through the posts. *)
Lemma shotAngle_subtended (g X C : R) :
  0 < g -> 0 < X ->
  shotAngle g X C = Num (subtended_angle g X C).
Proof.
  intros Hg HX.
  pose proof (subtended_angle_bounds g X C Hg HX) as HA.
  unfold subtended_angle in *.
  set (u := (C + g / 2) / X) in *. set (v := (C - g / 2) / X) in *.
  set (d := X ^ 2 + C ^ 2 - (g / 2) ^ 2).
  pose proof (atan_bound u) as Hu. pose proof (atan_bound v) as Hv.
  assert (Hcu : 0 < cos (atan u)) by (apply cos_gt_0; lra).
  assert (Hcv : 0 < cos (atan v)) by (apply cos_gt_0; lra).
  assert (Huv : 1 + u * v = d / X ^ 2).
  { unfold u, v, d. field. lra. }
  assert (HX2 : 0 < X ^ 2) by (apply pow_lt; exact HX).
  pose proof (cos_atan_diff u v) as Hcos.
  assert (Hn : 0 < g * X) by now apply Rmult_lt_0_compat.
  destruct (Rtotal_order d 0) as [Hd | [Hd | Hd]].
  - (* inside the circle: the difference exceeds a right angle *)
    assert (H1 : 1 + u * v < 0).
    { rewrite Huv. unfold Rdiv.
      pose proof (Rinv_0_lt_compat _ HX2). nra. }
    assert (Hneg : cos (atan u - atan v) < 0).
    { rewrite Hcos.
      pose proof (Rmult_lt_0_compat _ _ Hcu Hcv). nra. }
    assert (Hbig : PI / 2 < atan u - atan v).
    { destruct (Rlt_le_dec (PI / 2) (atan u - atan v)) as [H | H]; [exact H |].
      destruct H as [H | H].
      - assert (0 < cos (atan u - atan v)) by (apply cos_gt_0; lra). lra.
      - rewrite H, cos_PI2 in Hneg. lra. }
    assert (Htan : tan (atan u - atan v) = g * X / d).
    { rewrite tan_minus by (rewrite ?tan_atan; lra).
      rewrite !tan_atan. unfold u, v, d. apply posts_ratio; fold d; lra. }
    assert (Hshift : atan (g * X / d) = atan u - atan v - PI).
    { rewrite <- Htan.
      replace (atan u - atan v) with (PI + (atan u - atan v - PI)) at 1 by ring.
      rewrite Rtrigo_facts.tan_pi_plus.
      - apply atan_tan. lra.
      - assert (0 < cos (atan u - atan v - PI)) by (apply cos_gt_0; lra). lra. }
    rewrite angle_policies_agree by (fold d; lra). fold d.
    cbn [np_arctan]. cbv zeta. unfold np_lt. rewrite Hshift.
    rewrite np_gt_Num_true by lra. cbn [np_add np_pi]. f_equal. ring.
  - (* on the circle: a right angle *)
    assert (H1 : 1 + u * v = 0).
    { rewrite Huv, Hd. unfold Rdiv. ring. }
    assert (Hzero : cos (atan u - atan v) = 0).
    { rewrite Hcos, H1. ring. }
    assert (Hright : atan u - atan v = PI / 2).
    { destruct (Rtotal_order (atan u - atan v) (PI / 2)) as [H | [H | H]].
      - assert (0 < cos (atan u - atan v)) by (apply cos_gt_0; lra). lra.
      - exact H.
      - assert (cos (atan u - atan v) < 0) by (apply cos_lt_0; lra). lra. }
    unfold shotAngle, raw_arctan.
    rewrite (angle_ratio_singular _ _ _ Hd), (Rsign_pos _ Hn).
    cbn [inf_of_sign np_arctan]. pose proof PI_RGT_0.
    rewrite np_gt_Num_true by lra. now rewrite Hright.
  - (* outside the circle: an acute angle *)
    assert (H1 : 0 < 1 + u * v).
    { rewrite Huv. apply Rdiv_lt_0_compat; lra. }
    assert (Hpos : 0 < cos (atan u - atan v)).
    { rewrite Hcos. apply Rmult_lt_0_compat; [| lra].
      now apply Rmult_lt_0_compat. }
    assert (Hsmall : atan u - atan v < PI / 2).
    { destruct (Rlt_le_dec (atan u - atan v) (PI / 2)) as [H | H]; [exact H |].
      destruct H as [H | H].
      - assert (cos (atan u - atan v) < 0) by (apply cos_lt_0; lra). lra.
      - rewrite <- H, cos_PI2 in Hpos. lra. }
    assert (Htan : tan (atan u - atan v) = g * X / d).
    { rewrite tan_minus by (rewrite ?tan_atan; lra).
      rewrite !tan_atan. unfold u, v, d. apply posts_ratio; fold d; lra. }
    assert (Hsame : atan (g * X / d) = atan u - atan v).
    { rewrite <- Htan. apply atan_tan. lra. }
    rewrite angle_policies_agree by (fold d; lra). fold d.
    cbn [np_arctan]. cbv zeta. unfold np_lt. rewrite Hsame.
    now rewrite np_gt_Num_false by lra.
Qed.

(** X1: for a shot in front of the goal line ([X > 0]) the value of the
    [Angle] column is exactly the angle under which the goal mouth is
    seen: the direction to the far post minus the direction to the near
    post.  Adding pi when the arctangent is not positive is what makes the
    one-arctangent formula agree with this angle inside the circle through
    the posts. *)
Theorem shotAngle_is_subtended_angle (g X C : R) :
  0 < g -> 0 < X ->
  shotAngle g X C = Num (subtended_angle g X C).
Proof. exact (shotAngle_subtended g X C). Qed.

Lemma shotAngle_is_subtended_angle_witness :
  shotAngle goal_width 11 0 = Num (subtended_angle goal_width 11 0).
Proof.
  apply (shotAngle_is_subtended_angle goal_width 11 0);
    unfold goal_width; lra.
Defined.

Lemma atan_le (x y : R) : x <= y -> atan x <= atan y.
Proof.
  intros [H | ->]; [| lra]. apply atan_increasing in H. lra.
Qed.

(** X27: in front of the goal mouth ([abs C <= g/2]) a shot from further
    out sees the goal under a strictly smaller angle: the [Angle] column
    strictly decreases as [X] grows. *)
Theorem shotAngle_decreases_with_distance (g X1 X2 C : R) :
  0 < g -> 0 < X1 < X2 -> Rabs C <= g / 2 ->
  exists a1 a2,
    shotAngle g X1 C = Num a1 /\ shotAngle g X2 C = Num a2 /\ a2 < a1.
Proof.
  intros Hg [HX1 HX12] HC.
  rewrite !shotAngle_subtended by lra.
  do 2 eexists. split; [reflexivity | split; [reflexivity |]].
  unfold subtended_angle.
  assert (HC' : - (g / 2) <= C <= g / 2)
    by (unfold Rabs in HC; destruct (Rcase_abs C); lra).
  assert (Hi1 : 0 < / X1) by now apply Rinv_0_lt_compat.
  assert (Hi2 : 0 < / X2) by (apply Rinv_0_lt_compat; lra).
  assert (Hinv : / X2 < / X1).
  { apply Rinv_lt_contravar; [| exact HX12]. apply Rmult_lt_0_compat; lra. }
  unfold Rdiv.
  destruct (Rlt_le_dec 0 (C + g / 2)) as [Hn | Hn].
  - assert (Hu : atan ((C + g / 2) * / X2) < atan ((C + g / 2) * / X1)).
    { apply atan_increasing. nra. }
    assert (Hv : atan ((C - g / 2) * / X1) <= atan ((C - g / 2) * / X2)).
    { apply atan_le. nra. }
    lra.
  - assert (Hu : atan ((C + g / 2) * / X2) <= atan ((C + g / 2) * / X1)).
    { apply atan_le. nra. }
    assert (Hv : atan ((C - g / 2) * / X1) < atan ((C - g / 2) * / X2)).
    { apply atan_increasing. nra. }
    lra.
Qed.

Lemma shotAngle_decreases_with_distance_witness :
  exists a1 a2,
    shotAngle goal_width 11 0 = Num a1 /\
    shotAngle goal_width 16.5 0 = Num a2 /\ a2 < a1.
Proof.
  apply (shotAngle_decreases_with_distance goal_width 11 16.5 0);
    unfold goal_width; try lra.
  rewrite Rabs_R0. lra.
Defined.

(** ** The heat-map grid *)

(** The loop's angle, for a cell with [x > 0], is the value the [Angle]
    column takes at the same location. *)
Lemma pgoal_angle_column (x y : Z) :
  (0 < x)%Z ->
  pgoal_angle x y = Return (shots_Angle (IZR x) (Rabs (IZR y - 68 / 2))).
Proof.
  intros Hx. unfold pgoal_angle, shots_Angle.
  pose proof (pgoal_divisor_nonzero x y) as Hd.
  rewrite IZR_sq in *.
  destruct (Req_dec_T _ 0) as [H0 | _]; [contradiction |].
  rewrite angle_policies_agree; [reflexivity | | exact Hd].
  apply IZR_lt in Hx. unfold goal_width. nra.
Qed.

Lemma pgoal_angle_goal_line (y : Z) : pgoal_angle 0 y = Return (Num 0).
Proof.
  unfold pgoal_angle.
  destruct (Req_dec_T _ 0) as [Hd | _];
    [now apply pgoal_divisor_nonzero in Hd |].
  cbn [np_arctan]. unfold np_lt.
  replace (goal_width * 0 / _) with 0 by (unfold Rdiv; ring).
  rewrite atan_0, np_gt_Num_false by lra. reflexivity.
Qed.

(** X2: in every cell with [x >= 0] the loop's angle is computed without
    raising and is a number in the interval from 0 (included) to pi
    (excluded); it is 0 exactly on the goal line [x = 0], also between the
    posts, where the goal mouth is seen under the angle pi. *)
Theorem pgoal_angle_range (x y : Z) :
  (0 <= x)%Z ->
  exists a, pgoal_angle x y = Return (Num a) /\
            0 <= a < PI /\ (a = 0 <-> x = 0%Z).
Proof.
  intros Hx. pose proof PI_RGT_0 as Hpi.
  destruct (Z.eq_dec x 0%Z) as [-> | Hne].
  - exists 0. rewrite pgoal_angle_goal_line. repeat split; auto; lra.
  - assert (Hpos : (0 < x)%Z) by lia.
    rewrite (pgoal_angle_column x y Hpos). unfold shots_Angle.
    assert (HX : 0 < IZR x) by now apply IZR_lt.
    rewrite shotAngle_subtended by (unfold goal_width; lra).
    eexists. split; [reflexivity |].
    pose proof (subtended_angle_bounds goal_width (IZR x)
                  (Rabs (IZR y - 68 / 2))) as Hb.
    assert (Hg : 0 < goal_width) by (unfold goal_width; lra).
    specialize (Hb Hg HX). split; [lra | split; [lra | contradiction]].
Qed.

Lemma pgoal_angle_range_witness :
  exists a, pgoal_angle 0 34 = Return (Num a) /\
            0 <= a < PI /\ (a = 0 <-> 0%Z = 0%Z).
Proof. apply (pgoal_angle_range 0 34). lia. Defined.

Lemma grid_shot_mirror (x y : Z) : grid_shot x (68 - y) = grid_shot x y.
Proof.
  assert (Habs : Rabs (IZR (68 - y) - 68 / 2) = Rabs (IZR y - 68 / 2)).
  { rewrite minus_IZR.
    replace (68 - IZR y - 68 / 2) with (- (IZR y - 68 / 2)) by lra.
    apply Rabs_Ropp. }
  assert (Hsq : (IZR (68 - y) - 68 / 2) ^ 2 = (IZR y - 68 / 2) ^ 2).
  { rewrite minus_IZR. field. }
  unfold grid_shot, pgoal_angle. rewrite Habs, Hsq. reflexivity.
Qed.

(** X3: the heat map is symmetric about the centre line of the pitch:
    the cells [y] and [68 - y] of a row hold the same value (or raise the
    same error), whatever the fitted parameters. *)
Theorem pgoal_cell_mirror (b : list npfloat) (x y : Z) :
  pgoal_cell b x (68 - y) = pgoal_cell b x y.
Proof. unfold pgoal_cell. now rewrite grid_shot_mirror. Qed.



(** ** What [calculate_xG] reads, and what it raises *)

Lemma bsum_loop_ext (vars : list string) :
  forall (b1 b2 : list npfloat) (sh1 sh2 : row) (i : nat) (acc : npfloat),
    (forall v, In v vars -> sh1 !! v = sh2 !! v) ->
    (forall j, (i < j <= i + length vars)%nat -> b1 !! j = b2 !! j) ->
    bsum_loop b1 sh1 i vars acc = bsum_loop b2 sh2 i vars acc.
Proof.
  induction vars as [| v vars IH]; intros b1 b2 sh1 sh2 i acc Hsh Hb.
  - reflexivity.
  - cbn [bsum_loop]. unfold param, getitem.
    rewrite (Hb (i + 1)%nat) by (cbn [length]; lia).
    rewrite (Hsh v) by now left.
    destruct (b2 !! (i + 1)%nat) as [bi |]; [| reflexivity].
    destruct (sh2 !! v) as [xv |]; [| reflexivity].
    cbn [py_bind]. apply IH.
    + intros w Hw. apply Hsh. now right.
    + intros j Hj. apply Hb. cbn [length]. lia.
Qed.

Lemma calculate_xG_ext (vars : list string) (b1 b2 : list npfloat)
    (sh1 sh2 : row) :
  (forall v, In v vars -> sh1 !! v = sh2 !! v) ->
  (forall j, (j <= length vars)%nat -> b1 !! j = b2 !! j) ->
  calculate_xG vars b1 sh1 = calculate_xG vars b2 sh2.
Proof.
  intros Hsh Hb. unfold calculate_xG, linear_predictor, param.
  rewrite (Hb 0%nat) by lia.
  destruct (b2 !! 0%nat) as [b0 |]; [| reflexivity].
  cbn [py_bind].
  rewrite (bsum_loop_ext vars b1 b2 sh1 sh2 0 b0 Hsh); [reflexivity |].
  intros j Hj. apply Hb. lia.
Qed.

(** X5: [calculate_xG] reads nothing but the columns named by the model
    variables and the coefficients up to the last variable: two rows that
    agree on those columns, scored with coefficient vectors that agree on
    those positions, get the same result (value or error).  Further
    columns, such as [D2] or [Y], and further coefficients are ignored. *)
Theorem calculate_xG_reads_only_model_variables (vars : list string)
    (b1 b2 : list npfloat) (sh1 sh2 : row) :
  (forall v, In v vars -> sh1 !! v = sh2 !! v) ->
  (forall j, (j <= length vars)%nat -> b1 !! j = b2 !! j) ->
  calculate_xG vars b1 sh1 = calculate_xG vars b2 sh2.
Proof. exact (calculate_xG_ext vars b1 b2 sh1 sh2). Qed.

Lemma calculate_xG_reads_only_model_variables_witness :
  calculate_xG ["Angle"] [Num 3; Num (-3)] {["Angle" := Num 1]}
  = calculate_xG ["Angle"] [Num 3; Num (-3); Num 7]
      (<["D2" := Num 121]> {["Angle" := Num 1]}).
Proof.
  apply (calculate_xG_reads_only_model_variables ["Angle"]
           [Num 3; Num (-3)] [Num 3; Num (-3); Num 7]
           {["Angle" := Num 1]} (<["D2" := Num 121]> {["Angle" := Num 1]})).
  - intros v [<- | []]. reflexivity.
  - intros [| [| j]] Hj; [reflexivity | reflexivity | cbn in Hj; lia].
Defined.

Lemma bsum_loop_missing_column (b : list npfloat) (sh : row)
    (v : string) (post : list string) (pre : list string) :
  forall (i : nat) (acc : npfloat),
    (i + length pre + 1 < length b)%nat ->
    (forall w, In w pre -> is_Some (sh !! w)) ->
    sh !! v = None ->
    bsum_loop b sh i (pre ++ v :: post) acc = Raise (KeyError v).
Proof.
  induction pre as [| w pre IH]; intros i acc Hlen Hpre Hv.
  - cbn [app bsum_loop]. unfold param, getitem.
    destruct (lookup_lt_is_Some_2 b (i + 1)%nat) as [bi ->];
      [cbn [length] in Hlen; lia |].
    rewrite Hv. reflexivity.
  - cbn [app bsum_loop]. unfold param, getitem.
    destruct (lookup_lt_is_Some_2 b (i + 1)%nat) as [bi ->];
      [cbn [length] in Hlen; lia |].
    destruct (Hpre w) as [xw ->]; [now left |].
    cbn [py_bind]. apply IH.
    + cbn [length] in Hlen. lia.
    + intros u Hu. apply Hpre. now right.
    + exact Hv.
Qed.

(** X6: when the coefficient vector is long enough, a row that lacks a
    model variable makes [calculate_xG] raise [KeyError] for the first
    variable, in the order of the list, that is missing. *)
Theorem calculate_xG_missing_column (pre post : list string) (v : string)
    (b : list npfloat) (sh : row) :
  (length (pre ++ v :: post) < length b)%nat ->
  (forall w, In w pre -> is_Some (sh !! w)) ->
  sh !! v = None ->
  calculate_xG (pre ++ v :: post) b sh = Raise (KeyError v).
Proof.
  intros Hlen Hpre Hv. unfold calculate_xG, linear_predictor, param.
  rewrite length_app in Hlen. cbn [length] in Hlen.
  destruct (lookup_lt_is_Some_2 b 0%nat) as [b0 ->]; [lia |].
  cbn [py_bind].
  rewrite (bsum_loop_missing_column b sh v post pre 0 b0);
    [reflexivity | lia | exact Hpre | exact Hv].
Qed.

Lemma calculate_xG_missing_column_witness :
  calculate_xG (["Angle"] ++ "Distance" :: ["X"])
    [Num 3; Num (-3); Num 0; Num 0] {["Angle" := Num 1]}
  = Raise (KeyError "Distance").
Proof.
  apply (calculate_xG_missing_column ["Angle"] ["X"] "Distance"
           [Num 3; Num (-3); Num 0; Num 0] {["Angle" := Num 1]}).
  - cbn. lia.
  - intros w [<- | []]. exists (Num 1). reflexivity.
  - reflexivity.
Defined.

Lemma bsum_loop_short_params (b : list npfloat) (sh : row)
    (vars : list string) :
  forall (i : nat) (acc : npfloat),
    (i < length b <= i + length vars)%nat ->
    (forall k v, (i + k + 1 < length b)%nat ->
                 vars !! k = Some v -> is_Some (sh !! v)) ->
    bsum_loop b sh i vars acc = Raise (IndexError (length b)).
Proof.
  induction vars as [| v vars IH]; intros i acc Hlen Hsh.
  - cbn [length] in Hlen. lia.
  - cbn [bsum_loop]. unfold param, getitem.
    destruct (Nat.eq_dec (i + 1)%nat (length b)) as [Heq | Hne].
    + rewrite (proj2 (lookup_ge_None b (i + 1)%nat)) by lia.
      cbn [py_bind]. now rewrite Heq.
    + destruct (lookup_lt_is_Some_2 b (i + 1)%nat) as [bi ->]; [lia |].
      destruct (Hsh 0%nat v) as [xv ->]; [lia | reflexivity |].
      cbn [py_bind]. apply IH.
      * cbn [length] in Hlen. lia.
      * intros k w Hk Hw. apply (Hsh (S k) w); [lia | exact Hw].
Qed.

(** X7: a coefficient vector with fewer entries than one intercept plus
    one per model variable makes [calculate_xG] raise [IndexError] at the
    first missing position, provided the columns read before that
    position exist. *)
Theorem calculate_xG_short_params (vars : list string)
    (b : list npfloat) (sh : row) :
  (length b <= length vars)%nat ->
  (forall k v, (k + 1 < length b)%nat ->
               vars !! k = Some v -> is_Some (sh !! v)) ->
  calculate_xG vars b sh = Raise (IndexError (length b)).
Proof.
  intros Hlen Hsh. unfold calculate_xG, linear_predictor, param.
  destruct b as [| b0 b'] eqn:Hb; [reflexivity |].
  cbn [lookup list_lookup py_bind]. rewrite <- Hb in *.
  rewrite (bsum_loop_short_params b sh vars 0 b0);
    [reflexivity | subst b; cbn [length] in *; lia | exact Hsh].
Qed.

Lemma calculate_xG_short_params_witness :
  calculate_xG ["Angle"; "Distance"] [Num 3; Num (-3)]
    {["Angle" := Num 1]}
  = Raise (IndexError (length [Num 3; Num (-3)])).
Proof.
  apply (calculate_xG_short_params ["Angle"; "Distance"]
           [Num 3; Num (-3)] {["Angle" := Num 1]}).
  - cbn. lia.
  - intros [| k] v Hk Hv; cbn in Hk.
    + injection Hv as <-. exists (Num 1). reflexivity.
    + lia.
Defined.

(** ** The linear predictor *)





(** ** NaN features *)

Lemma np_add_nan_r (a : npfloat) : np_add a NaN = NaN.
Proof. now destruct a. Qed.

Lemma np_mul_nan_r (a : npfloat) : np_mul a NaN = NaN.
Proof. now destruct a. Qed.

Lemma bsum_loop_nan_acc (b : list npfloat) (sh : row) (vars : list string) :
  forall i : nat,
    (i + length vars < length b)%nat ->
    (forall w, In w vars -> is_Some (sh !! w)) ->
    bsum_loop b sh i vars NaN = Return NaN.
Proof.
  induction vars as [| v vars IH]; intros i Hlen Hsh; [reflexivity |].
  cbn [bsum_loop]. unfold param, getitem.
  destruct (lookup_lt_is_Some_2 b (i + 1)%nat) as [bi ->];
    [cbn [length] in Hlen; lia |].
  destruct (Hsh v) as [xv ->]; [now left |].
  cbn [py_bind np_add]. apply IH.
  - cbn [length] in Hlen. lia.
  - intros w Hw. apply Hsh. now right.
Qed.

Lemma bsum_loop_nan_feature (b : list npfloat) (sh : row) (v : string)
    (vars : list string) :
  forall (i : nat) (acc : npfloat),
    (i + length vars < length b)%nat ->
    (forall w, In w vars -> is_Some (sh !! w)) ->
    In v vars -> sh !! v = Some NaN ->
    bsum_loop b sh i vars acc = Return NaN.
Proof.
  induction vars as [| w vars IH]; intros i acc Hlen Hsh Hin Hv;
    [destruct Hin |].
  cbn [bsum_loop]. unfold param, getitem.
  destruct (lookup_lt_is_Some_2 b (i + 1)%nat) as [bi ->];
    [cbn [length] in Hlen; lia |].
  assert (Hrest : forall u, In u vars -> is_Some (sh !! u)).
  { intros u Hu. apply Hsh. now right. }
  cbn [length] in Hlen.
  destruct Hin as [-> | Hin].
  - rewrite Hv. cbn [py_bind]. rewrite np_mul_nan_r, np_add_nan_r.
    apply bsum_loop_nan_acc; [lia | exact Hrest].
  - destruct (Hsh w) as [xw ->]; [now left |].
    cbn [py_bind]. apply IH; [lia | exact Hrest | exact Hin | exact Hv].
Qed.

(** X9: NaN is never dropped on the way.  If a row has all the model
    variables, the coefficient vector is long enough, and one of the model
    variables is NaN in the row, then [calculate_xG] returns NaN (it does
    not raise, and no value of the other columns or of the coefficients
    brings the result back to a number). *)
Theorem calculate_xG_nan_feature (vars : list string) (b : list npfloat)
    (sh : row) (v : string) :
  (length vars < length b)%nat ->
  (forall w, In w vars -> is_Some (sh !! w)) ->
  In v vars -> sh !! v = Some NaN ->
  calculate_xG vars b sh = Return NaN.
Proof.
  intros Hlen Hsh Hin Hv. unfold calculate_xG, linear_predictor, param.
  destruct (lookup_lt_is_Some_2 b 0%nat) as [b0 ->]; [lia |].
  cbn [py_bind].
  rewrite (bsum_loop_nan_feature b sh v vars 0 b0);
    [reflexivity | lia | exact Hsh | exact Hin | exact Hv].
Qed.

Lemma calculate_xG_nan_feature_witness :
  calculate_xG ["Angle"] [Num 3; Num (-3)] {["Angle" := NaN]} = Return NaN.
Proof.
  apply (calculate_xG_nan_feature ["Angle"] [Num 3; Num (-3)]
           {["Angle" := NaN]} "Angle").
  - cbn. lia.
  - intros w [<- | []]. exists NaN. reflexivity.
  - now left.
  - reflexivity.
Defined.

(** ** The columns derived from a shot event *)

Lemma pow2_eq_0 (x : R) : x ^ 2 = 0 -> x = 0.
Proof.
  intros H. destruct (Req_dec x 0) as [E | E]; [exact E |].
  now apply (pow_nonzero x 2) in E.
Qed.

(** X10: for an event on the percent grid ([0 <= x, y <= 100]) the
    derived coordinates lie on the 105 by 68 pitch, and the column [C] is
    the distance of [Y] from the centre line [Y = 34], at most 34. *)
Theorem event_coordinates_on_pitch (ev : shot_event) :
  (0 <= pos_x ev <= 100)%Z -> (0 <= pos_y ev <= 100)%Z ->
  0 <= event_X ev <= 105 /\
  0 <= event_Y ev <= 68 /\
  0 <= event_C ev <= 34 /\
  event_C ev = Rabs (event_Y ev - 34).
Proof.
  intros [Hx0 Hx1] [Hy0 Hy1].
  apply IZR_le in Hx0, Hx1, Hy0, Hy1.
  unfold event_X, event_Y, event_C.
  assert (HC : Rabs (IZR (pos_y ev) - 50) * 68 / 100
               = Rabs (IZR (pos_y ev) * 68 / 100 - 34)).
  { replace (IZR (pos_y ev) * 68 / 100 - 34)
      with ((IZR (pos_y ev) - 50) * (68 / 100)) by lra.
    rewrite Rabs_mult, (Rabs_pos_eq (68 / 100)) by lra. lra. }
  pose proof (Rabs_pos (IZR (pos_y ev) - 50)) as Habs0.
  assert (Habs1 : Rabs (IZR (pos_y ev) - 50) <= 50) by (apply Rabs_le; lra).
  split; [lra | split; [lra | split; [lra | exact HC]]].
Qed.

Lemma event_coordinates_on_pitch_witness :
  let ev := mkEvent 80 50 [101%Z] in
  0 <= event_X ev <= 105 /\
  0 <= event_Y ev <= 68 /\
  0 <= event_C ev <= 34 /\
  event_C ev = Rabs (event_Y ev - 34).
Proof.
  apply (event_coordinates_on_pitch (mkEvent 80 50 [101%Z])); cbn; lia.
Defined.

(** X11: the [Distance] column of an event is a nonnegative number, never
    NaN; the [D2] column, computed as its square, equals [X2 + C2]; and
    the distance is 0 exactly for an event at the centre of the goal
    line. *)
Theorem event_distance_columns (ev : shot_event) :
  exists d,
    event_cols ev !! "Distance" = Some (Num d) /\
    0 <= d /\
    event_cols ev !! "D2" = Some (Num (event_X ev ^ 2 + event_C ev ^ 2)) /\
    event_cols ev !! "X2" = Some (Num (event_X ev ^ 2)) /\
    event_cols ev !! "C2" = Some (Num (event_C ev ^ 2)) /\
    (d = 0 <-> pos_x ev = 100%Z /\ pos_y ev = 50%Z).
Proof.
  set (d2 := event_X ev ^ 2 + event_C ev ^ 2).
  assert (HX : 0 <= event_X ev ^ 2) by apply pow2_ge_0.
  assert (HC : 0 <= event_C ev ^ 2) by apply pow2_ge_0.
  assert (Hd2 : 0 <= d2) by (unfold d2; lra).
  assert (Hsqrt : np_sqrt (Num d2) = Num (sqrt d2)).
  { cbn [np_sqrt]. destruct (Rlt_dec d2 0); [lra | reflexivity]. }
  exists (sqrt d2). unfold event_cols. fold d2. rewrite Hsqrt.
  cbn [np_mul]. rewrite (sqrt_sqrt d2 Hd2).
  split; [reflexivity |]. split; [apply sqrt_pos |].
  split; [reflexivity |]. split; [reflexivity |]. split; [reflexivity |].
  split.
  - intros H0. apply sqrt_eq_0 in H0; [| exact Hd2].
    assert (HX0 : event_X ev ^ 2 = 0) by (unfold d2 in H0; lra).
    assert (HC0 : event_C ev ^ 2 = 0) by (unfold d2 in H0; lra).
    apply pow2_eq_0 in HX0, HC0. unfold event_X in HX0. unfold event_C in HC0.
    assert (Hx : IZR (pos_x ev) = IZR 100) by lra.
    assert (Habs : Rabs (IZR (pos_y ev) - 50) = 0) by lra.
    assert (Hy : IZR (pos_y ev) = IZR 50).
    { destruct (Req_dec (IZR (pos_y ev) - 50) 0) as [H | H]; [lra |].
      apply Rabs_no_R0 in H. contradiction. }
    split; now apply eq_IZR.
  - intros [Hx Hy]. unfold d2, event_X, event_C. rewrite Hx, Hy.
    replace (IZR 50 - 50) with 0 by lra. rewrite Rabs_R0.
    replace (((100 - IZR 100) * 105 / 100) ^ 2 + (0 * 68 / 100) ^ 2)
      with 0 by lra.
    apply sqrt_0.
Qed.

(** X12: for an event with [x <= 100] the [Angle] column is a number in
    the interval from 0 (excluded) to pi (included), never NaN, and it is
    pi exactly for an event on the goal line ([x = 100]), whatever its
    lateral position. *)
Theorem event_angle_column (ev : shot_event) :
  (pos_x ev <= 100)%Z ->
  exists a,
    event_cols ev !! "Angle" = Some (Num a) /\
    0 < a <= PI /\
    (a = PI <-> pos_x ev = 100%Z).
Proof.
  intros Hx. pose proof PI_RGT_0 as Hpi.
  assert (Hg : 0 < goal_width) by (unfold goal_width; lra).
  change (event_cols ev !! "Angle")
    with (Some (shots_Angle (event_X ev) (event_C ev))).
  destruct (Z.eq_dec (pos_x ev) 100%Z) as [Heq | Hne].
  - destruct (event_angle_finite ev) as (a & Ha & Hrange).
    exists a. split; [now rewrite Ha |]. split; [exact Hrange |].
    split; [auto | intros _].
    assert (HX : event_X ev = 0) by (unfold event_X; rewrite Heq; lra).
    unfold shots_Angle, shotAngle, raw_arctan, angle_ratio in Ha.
    rewrite HX in Ha.
    replace (goal_width * 0) with 0 in Ha by ring.
    destruct (Req_dec_T (0 ^ 2 + event_C ev ^ 2 - (goal_width / 2) ^ 2) 0)
      as [Hd | Hd].
    + rewrite Hd, np_div_zero, Rsign_zero in Ha. discriminate Ha.
    + rewrite np_div_Num in Ha by exact Hd.
      replace (0 / _) with 0 in Ha by (unfold Rdiv; ring).
      cbn [np_arctan] in Ha. rewrite atan_0 in Ha.
      rewrite np_gt_Num_false in Ha by lra.
      cbn in Ha. injection Ha as <-. ring.
  - assert (HX : 0 < event_X ev).
    { unfold event_X. assert (pos_x ev <= 99)%Z as H by lia.
      apply IZR_le in H. lra. }
    unfold shots_Angle. rewrite shotAngle_subtended by assumption.
    pose proof (subtended_angle_bounds goal_width (event_X ev)
                  (event_C ev) Hg HX) as Hb.
    eexists. split; [reflexivity |]. split; [lra |].
    split; [lra | contradiction].
Qed.

Lemma event_angle_column_witness :
  let ev := mkEvent 100 0 [] in
  exists a,
    event_cols ev !! "Angle" = Some (Num a) /\
    0 < a <= PI /\
    (a = PI <-> pos_x ev = 100%Z).
Proof.
  apply (event_angle_column (mkEvent 100 0 [])). cbn. lia.
Defined.

(** X13: the heat map and the data frame score a location alike.  For a
    grid cell with [x > 0] and an event whose derived [X] and [C] are the
    cell's [x] and [abs(y - 34)], the value of the cell is the [xG] that
    [calculate_xG] gives the event's row, although the two dictionaries
    are built by different code. *)
Theorem pgoal_cell_agrees_with_event_row (b : list npfloat) (x y : Z)
    (ev : shot_event) :
  (0 < x)%Z ->
  event_X ev = IZR x ->
  event_C ev = Rabs (IZR y - 68 / 2) ->
  pgoal_cell b x y = calculate_xG model_variables b (event_cols ev).
Proof.
  intros Hx HX HC. unfold pgoal_cell, grid_shot.
  rewrite (pgoal_angle_column x y Hx). cbn [py_bind].
  apply calculate_xG_ext; [| reflexivity].
  unfold event_cols. rewrite HX, HC, !IZR_sq.
  unfold shots_Angle.
  assert (HXpos : 0 < IZR x) by now apply IZR_lt.
  rewrite shotAngle_subtended by (unfold goal_width; lra).
  cbn [np_mul]. rewrite !pow2_abs.
  rewrite (Rmult_comm (IZR x) (subtended_angle _ _ _)).
  intros v Hv. cbn [model_variables In] in Hv.
  repeat (destruct Hv as [<- | Hv]; [reflexivity |]).
  destruct Hv.
Qed.

Lemma pgoal_cell_agrees_with_event_row_witness :
  pgoal_cell example_params 21 34
  = calculate_xG model_variables example_params
      (event_cols (mkEvent 80 50 [101%Z])).
Proof.
  apply (pgoal_cell_agrees_with_event_row example_params 21 34
           (mkEvent 80 50 [101%Z])).
  - reflexivity.
  - unfold event_X. cbn [pos_x]. lra.
  - unfold event_C. cbn [pos_y].
    replace (IZR 50 - 50) with 0 by lra.
    replace (IZR 34 - 68 / 2) with 0 by lra.
    rewrite Rabs_R0. lra.
Defined.

(** ** The ROC counters as counts *)

Lemma count_if_cons (P : shot -> bool) (s : shot) (shots : list shot) :
  INR (count_if P (s :: shots))
  = (if P s then 1 else 0) + INR (count_if P shots).
Proof.
  unfold count_if. cbn [List.filter].
  destruct (P s); cbn [length]; rewrite ?S_INR; lra.
Qed.

Lemma count_if_le (P Q : shot -> bool) (shots : list shot) :
  (forall s, In s shots -> P s = true -> Q s = true) ->
  INR (count_if P shots) <= INR (count_if Q shots).
Proof.
  induction shots as [| s shots IH]; intros H.
  - unfold count_if. cbn. lra.
  - rewrite !count_if_cons.
    assert (IH' : INR (count_if P shots) <= INR (count_if Q shots)).
    { apply IH. intros s' Hs'. apply H. now right. }
    pose proof (H s (or_introl eq_refl)) as Hs.
    destruct (P s), (Q s); try lra; discriminate (Hs eq_refl).
Qed.

Lemma count_if_none (P : shot -> bool) (shots : list shot) :
  (forall s, In s shots -> P s = false) -> INR (count_if P shots) = 0.
Proof.
  induction shots as [| s shots IH]; intros H.
  - reflexivity.
  - rewrite count_if_cons, (H s (or_introl eq_refl)), IH; [lra |].
    intros s' Hs'. apply H. now right.
Qed.

Lemma fold_count_shot_counts (th : npfloat) (shots : list shot) :
  forall c : counts,
    let c' := fold_left (count_shot th) shots c in
    TP c' = TP c + INR (count_if (is_TP th) shots) /\
    FP c' = FP c + INR (count_if (is_FP th) shots) /\
    TN c' = TN c + INR (count_if (is_TN th) shots) /\
    FN c' = FN c + INR (count_if (is_FN th) shots).
Proof.
  induction shots as [| s shots IH]; intros c; cbn zeta.
  - unfold count_if. cbn [fold_left List.filter length INR].
    repeat split; lra.
  - cbn [fold_left].
    destruct (IH (count_shot th c s)) as (Htp & Hfp & Htn & Hfn).
    cbn zeta in Htp, Hfp, Htn, Hfn.
    rewrite Htp, Hfp, Htn, Hfn, !count_if_cons.
    unfold count_shot, is_TP, is_FP, is_TN, is_FN.
    destruct (Goal s =? 1)%Z, (Goal s =? 0)%Z, (np_gt (xG s) th);
      cbn [TP FP TN FN andb negb]; repeat split; lra.
Qed.

Lemma roc_counts_counts (th : npfloat) (shots : list shot) :
  TP (roc_counts th shots) = INR (count_if (is_TP th) shots) /\
  FP (roc_counts th shots) = INR (count_if (is_FP th) shots) /\
  TN (roc_counts th shots) = INR (count_if (is_TN th) shots) /\
  FN (roc_counts th shots) = INR (count_if (is_FN th) shots).
Proof.
  destruct (fold_count_shot_counts th shots zeros) as (Htp & Hfp & Htn & Hfn).
  cbn zeta in Htp, Hfp, Htn, Hfn. cbn [zeros TP FP TN FN] in *.
  unfold roc_counts. repeat split; lra.
Qed.

(** X14: after the inner loop the four counters of a threshold are what
    their names say: the numbers of shots labelled 1 with [xG] above the
    threshold (TP) and not above it (FN), and of shots labelled 0 with
    [xG] above the threshold (FP) and not above it (TN). *)
Theorem roc_counters_count_classes (th : npfloat) (shots : list shot) :
  TP (roc_counts th shots) = INR (count_if (is_TP th) shots) /\
  FP (roc_counts th shots) = INR (count_if (is_FP th) shots) /\
  TN (roc_counts th shots) = INR (count_if (is_TN th) shots) /\
  FN (roc_counts th shots) = INR (count_if (is_FN th) shots).
Proof. exact (roc_counts_counts th shots). Qed.

(** [a > t] on NumPy values is downward closed in a finite [t]. *)
Lemma np_gt_weaken (a : npfloat) (t1 t2 : R) :
  t1 <= t2 -> np_gt a (Num t2) = true -> np_gt a (Num t1) = true.
Proof.
  intros Ht. destruct a as [r | | |]; cbn; try (intros; assumption).
  destruct (Rlt_dec t2 r), (Rlt_dec t1 r); auto; try discriminate. lra.
Qed.

(** Raising a finite threshold never raises a rate. *)
Lemma roc_point_monotone (t1 t2 : R)
    (shots : list shot) :
  t1 <= t2 ->
  (exists s, In s shots /\ Goal s = 1%Z) ->
  (exists s, In s shots /\ Goal s = 0%Z) ->
  exists fpr1 tpr1 fpr2 tpr2,
    roc_point (Num t1) shots = (Num fpr1, Num tpr1) /\
    roc_point (Num t2) shots = (Num fpr2, Num tpr2) /\
    fpr2 <= fpr1 /\ tpr2 <= tpr1.
Proof.
  intros Ht Hpos Hneg.
  apply count_label_pos in Hpos, Hneg.
  destruct (roc_counts_totals (Num t1) shots) as (Hp1 & Hn1 & _).
  destruct (roc_counts_totals (Num t2) shots) as (Hp2 & Hn2 & _).
  cbn zeta in Hp1, Hn1, Hp2, Hn2.
  destruct (roc_counts_counts (Num t1) shots) as (Htp1 & Hfp1 & _).
  destruct (roc_counts_counts (Num t2) shots) as (Htp2 & Hfp2 & _).
  assert (HTP : TP (roc_counts (Num t2) shots)
                <= TP (roc_counts (Num t1) shots)).
  { rewrite Htp1, Htp2. apply count_if_le. intros s _. unfold is_TP.
    destruct (Goal s =? 1)%Z; cbn [andb]; [| discriminate].
    now apply np_gt_weaken. }
  assert (HFP : FP (roc_counts (Num t2) shots)
                <= FP (roc_counts (Num t1) shots)).
  { rewrite Hfp1, Hfp2. apply count_if_le. intros s _. unfold is_FP.
    destruct (Goal s =? 0)%Z; cbn [andb]; [| discriminate].
    now apply np_gt_weaken. }
  unfold roc_point. rewrite !np_div_Num by lra.
  do 4 eexists. split; [reflexivity | split; [reflexivity |]].
  rewrite Hp1, Hn1, Hp2, Hn2. unfold Rdiv. split.
  - apply Rmult_le_compat_r; [| exact HFP].
    apply Rlt_le. now apply Rinv_0_lt_compat.
  - apply Rmult_le_compat_r; [| exact HTP].
    apply Rlt_le. now apply Rinv_0_lt_compat.
Qed.

Lemma map_seq_lookup {A : Type} (f : nat -> A) (n : nat) :
  forall a i : nat, (i < n)%nat -> map f (seq a n) !! i = Some (f (a + i)%nat).
Proof.
  induction n as [| n IH]; intros a i Hi; [lia |].
  destruct i as [| i]; cbn [seq map].
  - cbn. now rewrite Nat.add_0_r.
  - cbn [lookup list_lookup]. rewrite <- Nat.add_succ_comm.
    apply (IH (S a) i). lia.
Qed.

Lemma roc_curve_lookup (shots : list shot) (i : nat) :
  (i < numobs)%nat ->
  roc_curve shots !! i
  = Some (roc_point (Num (0 + INR i * (1 / INR numobs))) shots).
Proof.
  intros Hi. unfold roc_curve, thresholds. rewrite map_map.
  now rewrite (map_seq_lookup _ numobs 0 i Hi).
Qed.

(** X15: the plotted curve runs downwards.  For a data set with both
    labels present every point of the curve is a pair of numbers, and a
    later point (a higher threshold) has a false positive rate and a true
    positive rate that are at most those of an earlier point. *)
Theorem roc_curve_monotone (shots : list shot) (i j : nat) :
  (i <= j < numobs)%nat ->
  (exists s, In s shots /\ Goal s = 1%Z) ->
  (exists s, In s shots /\ Goal s = 0%Z) ->
  exists fpr1 tpr1 fpr2 tpr2,
    roc_curve shots !! i = Some (Num fpr1, Num tpr1) /\
    roc_curve shots !! j = Some (Num fpr2, Num tpr2) /\
    fpr2 <= fpr1 /\ tpr2 <= tpr1.
Proof.
  intros [Hij Hj] Hpos Hneg.
  rewrite !roc_curve_lookup by lia.
  assert (Ht : 0 + INR i * (1 / INR numobs) <= 0 + INR j * (1 / INR numobs)).
  { apply le_INR in Hij.
    assert (0 < 1 / INR numobs).
    { apply Rdiv_lt_0_compat; [lra |]. apply lt_0_INR. unfold numobs. lia. }
    nra. }
  destruct (roc_point_monotone _ _ shots Ht Hpos Hneg)
    as (f1 & t1 & f2 & t2 & H1 & H2 & Hf & Htp).
  exists f1, t1, f2, t2. rewrite H1, H2. auto.
Qed.

Lemma roc_curve_monotone_witness :
  exists fpr1 tpr1 fpr2 tpr2,
    roc_curve [mkShot 1 (Num 0.5); mkShot 0 (Num 0.25)] !! 0%nat
      = Some (Num fpr1, Num tpr1) /\
    roc_curve [mkShot 1 (Num 0.5); mkShot 0 (Num 0.25)] !! 30%nat
      = Some (Num fpr2, Num tpr2) /\
    fpr2 <= fpr1 /\ tpr2 <= tpr1.
Proof.
  apply (roc_curve_monotone [mkShot 1 (Num 0.5); mkShot 0 (Num 0.25)] 0 30).
  - unfold numobs. lia.
  - exists (mkShot 1 (Num 0.5)). split; [now left | reflexivity].
  - exists (mkShot 0 (Num 0.25)). split; [right; now left | reflexivity].
Defined.

(** X16: a rate that is a number is a proportion: for every threshold
    and data set, each coordinate of the ROC point is NaN or lies between
    0 and 1. *)
Theorem roc_rates_are_proportions (th : npfloat) (shots : list shot) :
  (fst (roc_point th shots) = NaN \/
   exists r, fst (roc_point th shots) = Num r /\ 0 <= r <= 1) /\
  (snd (roc_point th shots) = NaN \/
   exists r, snd (roc_point th shots) = Num r /\ 0 <= r <= 1).
Proof.
  destruct (roc_counts_totals th shots) as (_ & _ & Hnn).
  cbn zeta in Hnn. destruct Hnn as (Htp & Hfp & Htn & Hfn).
  assert (Hrate : forall a b, 0 <= a -> 0 <= b ->
            np_div (Num a) (Num (a + b)) = NaN \/
            exists r, np_div (Num a) (Num (a + b)) = Num r /\ 0 <= r <= 1).
  { intros a b Ha Hb. destruct (rate_cases a b Ha Hb) as [H0 Hn].
    destruct (Req_dec (a + b) 0) as [Hz | Hnz]; [left; auto | right].
    exists (a / (a + b)). split; [auto |].
    assert (Hpos : 0 < a + b) by lra. split.
    - apply Rmult_le_pos; [exact Ha |].
      apply Rlt_le. now apply Rinv_0_lt_compat.
    - apply (Rmult_le_reg_r (a + b)); [exact Hpos |].
      unfold Rdiv. rewrite Rmult_assoc, Rinv_l by lra. lra. }
  unfold roc_point. cbn [fst snd]. split; apply Hrate; assumption.
Qed.

(** X17: at a threshold that no probability exceeds, nothing is
    classified positive: with both labels present the ROC point is
    [(0, 0)]. *)
Theorem roc_point_nothing_positive (th : npfloat) (shots : list shot) :
  (forall s, In s shots -> np_gt (xG s) th = false) ->
  (exists s, In s shots /\ Goal s = 1%Z) ->
  (exists s, In s shots /\ Goal s = 0%Z) ->
  roc_point th shots = (Num 0, Num 0).
Proof.
  intros Hall Hpos Hneg.
  apply count_label_pos in Hpos, Hneg.
  destruct (roc_counts_totals th shots) as (Hp & Hn & _).
  cbn zeta in Hp, Hn.
  destruct (roc_counts_counts th shots) as (Htp & Hfp & _).
  rewrite count_if_none in Htp, Hfp.
  - unfold roc_point. rewrite !np_div_Num by lra.
    rewrite Htp, Hfp. unfold Rdiv. now rewrite !Rmult_0_l.
  - intros s Hs. unfold is_FP. rewrite (Hall s Hs). apply andb_false_r.
  - intros s Hs. unfold is_TP. rewrite (Hall s Hs). apply andb_false_r.
Qed.

Lemma roc_point_nothing_positive_witness :
  roc_point (Num 1) [mkShot 1 (Num 0.5); mkShot 0 (Num 0.25)]
  = (Num 0, Num 0).
Proof.
  apply (roc_point_nothing_positive (Num 1)
           [mkShot 1 (Num 0.5); mkShot 0 (Num 0.25)]).
  - intros s [<- | [<- | []]]; apply np_gt_Num_false; cbn [xG]; lra.
  - exists (mkShot 1 (Num 0.5)). split; [now left | reflexivity].
  - exists (mkShot 0 (Num 0.25)). split; [right; now left | reflexivity].
Defined.

Lemma count_label_binary (shots : list shot) :
  Forall (fun s => Goal s = 0%Z \/ Goal s = 1%Z) shots ->
  (count_label 1 shots + count_label 0 shots)%nat = length shots.
Proof.
  induction 1 as [| s shots Hs _ IH]; [reflexivity |].
  unfold count_label in *. cbn [List.filter].
  destruct Hs as [-> | ->]; cbn [Z.eqb Pos.eqb length]; lia.
Qed.

Lemma event_Goal_binary (ev : shot_event) :
  event_Goal ev = 0%Z \/ event_Goal ev = 1%Z.
Proof. unfold event_Goal. destruct (existsb _ _); auto. Qed.

(** X18: every shot of the event data is counted exactly once.  With
    finite parameters, scoring the rows derived from any list of events
    raises nothing and keeps one shot per event, and at every threshold
    the four counters add up to the number of events. *)
Theorem event_shots_counted_once (b : list npfloat)
    (events : list shot_event) :
  has_params model_variables b ->
  exists shots,
    assign_xG b (map event_row events) = Return shots /\
    length shots = length events /\
    forall th,
      let c := roc_counts th shots in
      TP c + FP c + TN c + FN c = INR (length events).
Proof.
  intros Hb.
  destruct (assign_xG_scores b (map event_row events) Hb)
    as (shots & Hs & Hall).
  { apply List.Forall_forall. intros r Hr. apply in_map_iff in Hr.
    destruct Hr as (ev & <- & _). apply event_cols_features. }
  exists shots. split; [exact Hs |].
  assert (Hlen : length shots = length events).
  { apply Forall2_length in Hall. now rewrite length_map in Hall. }
  split; [exact Hlen |]. intros th. cbn zeta.
  destruct (roc_counts_totals th shots) as (Hp & Hn & _).
  cbn zeta in Hp, Hn.
  assert (Hbin : Forall (fun s => Goal s = 0%Z \/ Goal s = 1%Z) shots).
  { clear -Hall. remember (map event_row events) as rows eqn:Hrows.
    revert events Hrows.
    induction Hall as [| r s rows shots (Hg & _) _ IH]; intros events Hrows.
    - constructor.
    - destruct events as [| ev events]; [discriminate Hrows |].
      injection Hrows as -> ->. constructor; [| now apply (IH events)].
      rewrite Hg. apply event_Goal_binary. }
  apply count_label_binary in Hbin.
  rewrite <- Hlen, <- Hbin, plus_INR. lra.
Qed.

Lemma event_shots_counted_once_witness :
  exists shots,
    assign_xG example_params
      (map event_row [mkEvent 80 50 [101%Z]; mkEvent 70 40 []])
      = Return shots /\
    length shots = length [mkEvent 80 50 [101%Z]; mkEvent 70 40 []] /\
    forall th,
      let c := roc_counts th shots in
      TP c + FP c + TN c + FN c
      = INR (length [mkEvent 80 50 [101%Z]; mkEvent 70 40 []]).
Proof.
  apply (event_shots_counted_once example_params
           [mkEvent 80 50 [101%Z]; mkEvent 70 40 []]).
  intros j Hj. cbn [model_variables length] in Hj.
  do 8 (destruct j as [| j]; [cbn; eauto |]). lia.
Defined.

(** ** McFadden's pseudo R squared on log-likelihoods *)

(** X19: for a negative null log-likelihood and a fitted log-likelihood
    that is not positive, the pseudo R squared is a number at most 1; it
    is nonnegative exactly when the fitted log-likelihood is at least the
    null one, and 0 exactly when the two are equal. *)
Theorem pseudoR2_range (llf llnull : R) :
  llnull < 0 -> llf <= 0 ->
  exists r,
    pseudoR2 (Num llf) (Num llnull) = Return (Num r) /\
    r <= 1 /\
    (0 <= r <-> llnull <= llf) /\
    (r = 0 <-> llf = llnull).
Proof.
  intros Hn Hf. exists (1 - llf / llnull).
  unfold pseudoR2, np_sub. rewrite np_div_Num by lra.
  split; [reflexivity |].
  assert (Hinv : / llnull < 0) by now apply Rinv_lt_0_compat.
  assert (Hq : llf / llnull * llnull = llf).
  { unfold Rdiv. rewrite Rmult_assoc, Rinv_l by lra. ring. }
  set (q := llf / llnull) in *.
  assert (Hq0 : 0 <= q) by (unfold q, Rdiv; nra).
  split; [lra |]. split; split; intros H; nra.
Qed.

Lemma pseudoR2_range_witness :
  exists r,
    pseudoR2 (Num (-80)) (Num (-100)) = Return (Num r) /\
    r <= 1 /\
    (0 <= r <-> -100 <= -80) /\
    (r = 0 <-> -80 = -100).
Proof. apply (pseudoR2_range (-80) (-100)); lra. Defined.

(** ** The one-variable logistic models *)

Lemma logistic_curve_Num (b0 b1 x : R) :
  logistic_curve (Num b0) (Num b1) (Num x) = logistic (Num (b0 + b1 * x)).
Proof. reflexivity. Qed.

(** X20: in a one-variable model the sign of the slope decides the
    direction.  The value is a number of the closed interval from 0 to 1;
    with a slope that is not positive (the angle model, [b = [3, -3]]) it
    never decreases as the variable grows, and with a slope that is not
    negative it never increases.  It need not change: the curve has
    plateaus, at 1 and at 0 in particular. *)
Theorem logistic_curve_direction (b0 b1 x1 x2 : R) :
  x1 <= x2 ->
  exists p1 p2,
    logistic_curve (Num b0) (Num b1) (Num x1) = Num p1 /\
    logistic_curve (Num b0) (Num b1) (Num x2) = Num p2 /\
    0 <= p1 <= 1 /\ 0 <= p2 <= 1 /\
    (b1 <= 0 -> p1 <= p2) /\ (0 <= b1 -> p2 <= p1).
Proof.
  intros Hx. rewrite !logistic_curve_Num.
  destruct (logistic_Num_range (b0 + b1 * x1)) as (p1 & Hp1 & Hr1 & _).
  destruct (logistic_Num_range (b0 + b1 * x2)) as (p2 & Hp2 & Hr2 & _).
  exists p1, p2. rewrite Hp1, Hp2.
  split; [reflexivity | split; [reflexivity |]].
  split; [exact Hr1 | split; [exact Hr2 |]].
  split; intros Hb.
  - destruct (logistic_nonincreasing (b0 + b1 * x2) (b0 + b1 * x1))
      as (q2 & q1 & Hq2 & Hq1 & Hle); [nra |].
    rewrite Hp2 in Hq2. rewrite Hp1 in Hq1.
    injection Hq1 as <-. injection Hq2 as <-. exact Hle.
  - destruct (logistic_nonincreasing (b0 + b1 * x1) (b0 + b1 * x2))
      as (q1 & q2 & Hq1 & Hq2 & Hle); [nra |].
    rewrite Hp2 in Hq2. rewrite Hp1 in Hq1.
    injection Hq1 as <-. injection Hq2 as <-. exact Hle.
Qed.

Lemma logistic_curve_direction_witness :
  exists p1 p2,
    logistic_curve (Num 3) (Num (-3)) (Num 0) = Num p1 /\
    logistic_curve (Num 3) (Num (-3)) (Num 1) = Num p2 /\
    0 <= p1 <= 1 /\ 0 <= p2 <= 1 /\
    (-3 <= 0 -> p1 <= p2) /\ (0 <= -3 -> p2 <= p1).
Proof. apply (logistic_curve_direction 3 (-3) 0 1). lra. Defined.

(** ** The log-likelihood loop *)

Lemma np_log_Num (p : R) : 0 < p -> np_log (Num p) = Num (ln p).
Proof. intros Hp. cbn [np_log]. now rewrite Rsign_pos. Qed.

Lemma ln_neg (p : R) : 0 < p < 1 -> ln p < 0.
Proof. intros [H0 H1]. rewrite <- ln_1. now apply ln_increasing. Qed.

Lemma loglikelihood_step_neg (l : R) (s : shot) :
  (exists p, xG s = Num p /\ 0 < p < 1) ->
  exists l', loglikelihood_step (Num l) s = Num l' /\ l' < l.
Proof.
  intros (p & Hp & Hrange). unfold loglikelihood_step. rewrite Hp.
  destruct (Goal s =? 1)%Z.
  - rewrite np_log_Num by lra. cbn [np_add].
    eexists. split; [reflexivity |]. pose proof (ln_neg p Hrange). lra.
  - unfold np_sub. cbn [np_neg np_add].
    rewrite np_log_Num by lra. cbn [np_add].
    eexists. split; [reflexivity |].
    assert (H : 0 < 1 + - p < 1) by lra. apply ln_neg in H. lra.
Qed.

Lemma fold_loglikelihood_neg (shots : list shot) :
  Forall (fun s => exists p, xG s = Num p /\ 0 < p < 1) shots ->
  forall l : R,
    exists l', fold_left loglikelihood_step shots (Num l) = Num l' /\
               l' <= l /\ (shots <> [] -> l' < l).
Proof.
  induction 1 as [| s shots Hs _ IH]; intros l.
  - exists l. cbn. split; [reflexivity | split; [lra | congruence]].
  - cbn [fold_left].
    destruct (loglikelihood_step_neg l s Hs) as (l1 & -> & Hl1).
    destruct (IH l1) as (l2 & -> & Hl2 & _).
    exists l2. split; [reflexivity | split; [lra | intros _; lra]].
Qed.

(** X21: the log-likelihood the script prints is a number that is never
    positive, and negative as soon as there is a shot, provided the first
    40 shots carry probabilities strictly between 0 and 1; shots after
    the 40th are not looked at. *)
Theorem loglikelihood_nonpositive (shots : list shot) :
  Forall (fun s => exists p, xG s = Num p /\ 0 < p < 1) (firstn 40 shots) ->
  exists l, loglikelihood shots = Num l /\ l <= 0 /\ (shots <> [] -> l < 0).
Proof.
  intros Hall. unfold loglikelihood.
  destruct (fold_loglikelihood_neg _ Hall 0) as (l & Hl & Hle & Hlt).
  exists l. split; [exact Hl | split; [exact Hle |]].
  intros Hne. apply Hlt. destruct shots; [congruence | discriminate].
Qed.

Lemma loglikelihood_nonpositive_witness :
  exists l,
    loglikelihood [mkShot 1 (Num 0.5); mkShot 0 (Num 0.25)] = Num l /\
    l <= 0 /\
    ([mkShot 1 (Num 0.5); mkShot 0 (Num 0.25)] <> [] -> l < 0).
Proof.
  apply (loglikelihood_nonpositive
           [mkShot 1 (Num 0.5); mkShot 0 (Num 0.25)]).
  cbn [firstn]. repeat constructor.
  - exists 0.5. split; [reflexivity | lra].
  - exists 0.25. split; [reflexivity | lra].
Defined.

(** ** The model formula *)

Lemma string_app_assoc (s1 s2 s3 : string) :
  ((s1 ++ s2) ++ s3 = s1 ++ (s2 ++ s3))%string.
Proof.
  induction s1 as [| c s1 IH]; [reflexivity |].
  change (String c ((s1 ++ s2) ++ s3) = String c (s1 ++ (s2 ++ s3)))%string.
  now f_equal.
Qed.

Lemma fold_model_acc (vars : list string) :
  forall acc : string,
    fold_left (fun model v => model ++ v ++ " + ")%string vars acc
    = (acc ++ fold_left (fun model v => model ++ v ++ " + ") vars "")%string.
Proof.
  induction vars as [| v vars IH]; intros acc; cbn [fold_left].
  - induction acc as [| c acc IHa]; [reflexivity |].
    change (String c acc = String c (acc ++ ""))%string. now f_equal.
  - change ("" ++ v ++ " + ")%string with (v ++ " + ")%string.
    rewrite (IH (acc ++ v ++ " + ")%string), (IH (v ++ " + ")%string).
    apply string_app_assoc.
Qed.

(** X22: for a nonempty list of model variables the loop that builds the
    right-hand side of the formula returns the variables joined by
    [" + "]: no separator is lost or left dangling at the end. *)
Theorem build_model_is_join (vars : list string) :
  vars <> [] ->
  build_model vars = Return (String.concat " + " vars).
Proof.
  intros Hne. destruct vars as [| v vars]; [congruence | clear Hne].
  unfold build_model. f_equal. revert v.
  induction vars as [| w vars IH]; intros v.
  - reflexivity.
  - change (List.removelast (v :: w :: vars))
      with (v :: List.removelast (w :: vars)).
    change (List.last (v :: w :: vars) ""%string)
      with (List.last (w :: vars) ""%string).
    cbn [fold_left].
    change ("" ++ v ++ " + ")%string with (v ++ " + ")%string.
    rewrite fold_model_acc.
    change (String.concat " + " (v :: w :: vars))
      with (v ++ " + " ++ String.concat " + " (w :: vars))%string.
    rewrite <- (IH w). now rewrite !string_app_assoc.
Qed.

Lemma build_model_is_join_witness :
  build_model model_variables
  = Return (String.concat " + " model_variables).
Proof. apply (build_model_is_join model_variables). discriminate. Defined.

(** ** The empirical probability per bin *)

Lemma combine_map_seq {A B : Type} (f : nat -> A) (g : nat -> B)
    (l : list nat) :
  combine (map f l) (map g l) = map (fun i => (f i, g i)) l.
Proof. induction l as [| i l IH]; cbn; [reflexivity | now rewrite IH]. Qed.

(** In every bin the goals are at most as many as the shots: the goals
    are rows of the same table. *)
Lemma goals_in_bin_le (P : npfloat -> bool) (rows : list (Z * npfloat)) :
  (length (List.filter P
             (map snd (List.filter (fun r => (fst r =? 1)%Z) rows)))
   <= length (List.filter P (map snd rows)))%nat.
Proof.
  induction rows as [| [l v] rows IH]; [reflexivity |].
  cbn [List.filter map fst snd].
  destruct (l =? 1)%Z; cbn [map List.filter snd];
    destruct (P v); cbn [length]; lia.
Qed.

(** X23: the empirical probability of scoring has one entry per bin; the
    entry of a bin without shots is NaN (the division [0 / 0] does not
    raise), and the entry of any other bin is the number of goals in the
    bin divided by the number of shots in the bin, a proportion, because
    the goals of a bin are among its shots. *)
Theorem prob_goal_entries (nbins : nat) (lo hi : R)
    (rows : list (Z * npfloat)) :
  (0 < nbins)%nat -> lo < hi ->
  Forall2
    (fun i p =>
       let shots_in := length (List.filter (in_bin nbins lo hi i)
                                 (map snd rows)) in
       let goals_in :=
         length (List.filter (in_bin nbins lo hi i)
                   (map snd (List.filter (fun r => (fst r =? 1)%Z) rows))) in
       (goals_in <= shots_in)%nat /\
       (shots_in = 0%nat -> p = NaN) /\
       (shots_in <> 0%nat -> p = Num (INR goals_in / INR shots_in)))
    (seq 0 nbins) (prob_goal nbins lo hi rows).
Proof.
  intros _ _.
  unfold prob_goal, histogram. rewrite combine_map_seq, map_map.
  cbn [fst snd].
  induction (seq 0 nbins) as [| i l IH]; cbn [map]; constructor; [| exact IH].
  cbn zeta.
  pose proof (goals_in_bin_le (in_bin nbins lo hi i) rows) as Hle.
  split; [exact Hle | split].
  - intros H0. rewrite H0 in *.
    assert (Hg : length (List.filter (in_bin nbins lo hi i)
                   (map snd (List.filter (fun r => (fst r =? 1)%Z) rows)))
                 = 0%nat) by lia.
    rewrite Hg. cbn [INR]. now rewrite np_div_zero, Rsign_zero.
  - intros Hn. apply np_div_Num. now apply not_0_INR.
Qed.

Lemma prob_goal_entries_witness :
  Forall2
    (fun i p =>
       let shots_in := length (List.filter (in_bin 40 0 150 i)
                                 (map snd [(1%Z, Num 10); (0%Z, Num 20)])) in
       let goals_in :=
         length (List.filter (in_bin 40 0 150 i)
                   (map snd (List.filter (fun r => (fst r =? 1)%Z)
                               [(1%Z, Num 10); (0%Z, Num 20)]))) in
       (goals_in <= shots_in)%nat /\
       (shots_in = 0%nat -> p = NaN) /\
       (shots_in <> 0%nat -> p = Num (INR goals_in / INR shots_in)))
    (seq 0 40) (prob_goal 40 0 150 [(1%Z, Num 10); (0%Z, Num 20)]).
Proof.
  apply (prob_goal_entries 40 0 150 [(1%Z, Num 10); (0%Z, Num 20)]);
    [lia | lra].
Defined.

(** * Properties of the pass maps (lesson 1) *)

(** X24: the two pass maps of Lucy Bronze differ by her throw-ins.  Every
    arrow of the iterative solution ends where the pass ended, and the
    segments it draws are those of the second map, [pitch.arrows] on
    [df_pass], with the throw-ins left out: the loop runs over [passes],
    which excludes throw-ins, while [mask_bronze] does not.  So the second
    map has as many arrows more as she took throw-ins. *)
Theorem bronze_maps_differ_by_throw_ins (df : list pass_event) :
  map arrow_segment (iterative_arrows df)
  = pass_segments
      (List.filter (fun e => negb (str_eq (sub_type_name e) "Throw-in"))
         (df_pass df)) /\
  length (pass_segments (df_pass df))
  = (length (iterative_arrows df)
     + length (List.filter (fun e => str_eq (sub_type_name e) "Throw-in")
                 (df_pass df)))%nat.
Proof.
  unfold iterative_arrows, pass_segments, passes, df_pass.
  rewrite !length_map, map_map. split.
  - induction df as [| e df IH]; [reflexivity |].
    cbn [List.filter].
    destruct (String.eqb (type_name e) "Pass"); cbn [andb List.filter];
      [| exact IH].
    destruct (str_eq (sub_type_name e) "Throw-in") eqn:Hs,
             (str_eq (player_name e) "Lucy Bronze") eqn:Hp;
      do 3 (cbn [negb List.filter map]; rewrite ?Hs, ?Hp); try exact IH.
    rewrite IH. f_equal. unfold arrow_segment.
    cbn [arrow_x arrow_y arrow_dx arrow_dy].
    assert (Hx : (start_x e + (end_x e - start_x e))%R = end_x e) by lra.
    assert (Hy : (start_y e + (end_y e - start_y e))%R = end_y e) by lra.
    now rewrite Hx, Hy.
  - induction df as [| e df IH]; [reflexivity |].
    cbn [List.filter].
    destruct (String.eqb (type_name e) "Pass"); cbn [andb List.filter];
      [| exact IH].
    destruct (str_eq (sub_type_name e) "Throw-in") eqn:Hs,
             (str_eq (player_name e) "Lucy Bronze") eqn:Hp;
      do 3 (cbn [negb List.filter length]; rewrite ?Hs, ?Hp); lia.
Qed.

(** ** One pitch per player *)

Lemma unique_from_In (l : list (option string)) :
  forall (seen : list (option string)) (x : option string),
    In x (unique_from seen l) <-> In x l /\ ~ In x seen.
Proof.
  induction l as [| y l IH]; intros seen x; cbn [unique_from].
  - cbn. tauto.
  - destruct (in_dec name_eq_dec y seen) as [Hy | Hy].
    + rewrite IH. cbn [In]. split.
      * intros [Hl Hs]. auto.
      * intros [[-> | Hl] Hs]; [contradiction | auto].
    + cbn [In]. rewrite IH. cbn [In]. split.
      * intros [-> | [Hl Hs]]; [auto |]. split; [auto | tauto].
      * intros [[-> | Hl] Hs]; [auto |].
        destruct (name_eq_dec y x) as [-> | Hne]; [auto | right; tauto].
Qed.

Lemma unique_from_NoDup (l : list (option string)) :
  forall seen : list (option string), List.NoDup (unique_from seen l).
Proof.
  induction l as [| y l IH]; intros seen; cbn [unique_from].
  - constructor.
  - destruct (in_dec name_eq_dec y seen) as [Hy | Hy]; [apply IH |].
    constructor; [| apply IH].
    rewrite unique_from_In. cbn [In]. tauto.
Qed.

Lemma total_map_add {A : Type} (f g : A -> nat) (l : list A) :
  total (map (fun a => (f a + g a)%nat) l)
  = (total (map f l) + total (map g l))%nat.
Proof.
  unfold total. induction l as [| a l IH]; cbn [map fold_right]; lia.
Qed.

(** Among distinct names exactly one selects a named pass. *)
Lemma total_selects (p : pass_event) (n : string)
    (l : list (option string)) :
  player_name p = Some n ->
  List.NoDup l -> In (Some n) l ->
  total (map (fun name => if selects name p then 1 else 0)%nat l) = 1%nat.
Proof.
  intros Hp. unfold total.
  assert (Hsel : forall name, selects name p = true <-> name = Some n).
  { intros [m |]; unfold selects, str_eq; rewrite ?Hp.
    - rewrite String.eqb_eq. split; congruence.
    - split; discriminate. }
  induction 1 as [| x l Hx Hnd IH]; intros Hin; [destruct Hin |].
  cbn [map fold_right].
  destruct (selects x p) eqn:Hsx.
  - apply Hsel in Hsx. subst x.
    assert (H0 : fold_right Nat.add 0%nat
             (map (fun name => if selects name p then 1 else 0)%nat l)
             = 0%nat); [| lia].
    clear -Hx Hsel. induction l as [| y l IH]; [reflexivity |].
    cbn [map fold_right].
    destruct (selects y p) eqn:Hsy.
    + apply Hsel in Hsy. subst y. exfalso. apply Hx. now left.
    + rewrite IH; [reflexivity |]. intros H. apply Hx. now right.
  - destruct Hin as [-> | Hin].
    + assert (selects (Some n) p = true) by now apply Hsel. congruence.
    + rewrite (IH Hin). lia.
Qed.

Lemma player_df_selects (df : list pass_event) (name : option string) :
  player_df df name = List.filter (selects name) (df_passes df).
Proof.
  unfold player_df, selects. destruct name as [n |]; [reflexivity |].
  induction (df_passes df) as [| p l IH]; [reflexivity | exact IH].
Qed.

(** The passes drawn over all names: each named pass once. *)
Lemma total_player_df (l : list pass_event) (nms : list (option string)) :
  List.NoDup nms ->
  (forall p, In p l -> In (player_name p) nms) ->
  (forall p, In p l -> player_name p <> None) ->
  total (map (fun name => length (List.filter (selects name) l)) nms)
  = length l.
Proof.
  intros Hnd. induction l as [| p l IH]; intros Hin Hnamed.
  - unfold total. clear. induction nms as [| a nms IHn]; [reflexivity |].
    cbn [map fold_right List.filter length]. exact IHn.
  - assert (Hstep : forall name,
      length (List.filter (selects name) (p :: l))
      = ((if selects name p then 1 else 0)
         + length (List.filter (selects name) l))%nat).
    { intros name. cbn [List.filter]. now destruct (selects name p). }
    rewrite (map_ext _ _ Hstep), total_map_add, IH; cbn [length].
    + destruct (player_name p) as [n |] eqn:Hp.
      * rewrite (total_selects p n nms Hp Hnd); [lia |].
        rewrite <- Hp. apply Hin. now left.
      * exfalso. apply (Hnamed p); [now left | exact Hp].
    + intros q Hq. apply Hin. now right.
    + intros q Hq. apply Hnamed. now right.
Qed.

Lemma firstn_seq_le (n : nat) :
  forall a m : nat, (n <= m)%nat -> firstn n (seq a m) = seq a n.
Proof.
  induction n as [| n IH]; intros a m Hle; [reflexivity |].
  destruct m as [| m]; [lia |].
  cbn [seq firstn]. f_equal. apply IH. lia.
Qed.

(** X25: every pass lands on exactly one pitch.  If England's passes all
    carry a player name and at most 16 players passed, the loop uses the
    first pitches of the grid in order, one per name, each name once, and
    the numbers of passes drawn on the pitches add up to the number of
    rows of [df_passes]: no pass is dropped and none is drawn twice. *)
Theorem player_panels_partition (df : list pass_event) :
  (length (names df) <= 16)%nat ->
  (forall p, In p (df_passes df) -> player_name p <> None) ->
  map fst (player_panels df) = seq 0 (length (names df)) /\
  map (fun panel => fst (snd panel)) (player_panels df) = names df /\
  List.NoDup (names df) /\
  total (map (fun panel => length (snd (snd panel))) (player_panels df))
  = length (df_passes df).
Proof.
  intros Hlen Hnamed. unfold player_panels, grid_axes.
  set (nms := names df) in *.
  assert (Hfirst : firstn (length nms) (seq 0 16) = seq 0 (length nms)).
  { now apply firstn_seq_le. }
  rewrite Hfirst.
  assert (Hnd : List.NoDup nms) by apply unique_from_NoDup.
  assert (Hfst : forall (B : Type) (l : list B),
            map fst (combine (seq 0 (length l)) l) = seq 0 (length l)).
  { intros B l. generalize 0%nat.
    induction l as [| b l IH]; intros k; cbn; [reflexivity | now rewrite IH]. }
  assert (Hsnd : forall (B : Type) (l : list B),
            map snd (combine (seq 0 (length l)) l) = l).
  { intros B l. generalize 0%nat.
    induction l as [| b l IH]; intros k; cbn; [reflexivity | now rewrite IH]. }
  split; [| split; [| split; [exact Hnd |]]].
  - rewrite <- (length_map (fun name => (name, player_df df name)) nms) at 1.
    rewrite Hfst. now rewrite length_map.
  - rewrite <- (map_map snd fst).
    rewrite <- (length_map (fun name => (name, player_df df name)) nms).
    rewrite Hsnd, map_map. cbn [fst]. apply map_id.
  - rewrite <- (map_map snd (fun x => length (snd x))).
    rewrite <- (length_map (fun name => (name, player_df df name)) nms).
    rewrite Hsnd, map_map. cbn [snd].
    rewrite (map_ext _ (fun name =>
               length (List.filter (selects name) (df_passes df))))
      by (intros name; now rewrite player_df_selects).
    apply total_player_df; [exact Hnd | | exact Hnamed].
    intros p Hp. unfold nms, names, unique.
    rewrite unique_from_In. split; [now apply in_map | auto].
Qed.

Lemma player_panels_partition_witness :
  map fst (player_panels example_df) = seq 0 (length (names example_df)) /\
  map (fun panel => fst (snd panel)) (player_panels example_df)
  = names example_df /\
  List.NoDup (names example_df) /\
  total (map (fun panel => length (snd (snd panel)))
             (player_panels example_df))
  = length (df_passes example_df).
Proof.
  apply (player_panels_partition example_df).
  - cbn. lia.
  - intros p Hp. cbn in Hp. destruct Hp as [<- | [<- | []]]; discriminate.
Defined.

(** ** Removing the spare pitches *)

(** X26: the last loop removes exactly the pitches no player was drawn on
    only when there are 14 names (eleven players and three substitutes).
    With fewer names at least one empty pitch stays on the figure; with 15
    or 16 names the loop removes a pitch on which a player's passes were
    just drawn. *)
Theorem removed_axes_fit_fourteen_names (n : nat) :
  (n <= 16)%nat ->
  (removed_axes n = unused_axes n <-> n = 14%nat) /\
  (n < 14 -> exists i, In i (unused_axes n) /\ ~ In i (removed_axes n))%nat /\
  (14 < n -> exists i, i < n /\ In i (removed_axes n))%nat.
Proof.
  intros Hle.
  do 17 (destruct n as [| n];
    [ split;
      [ split; intros H;
        first [ reflexivity | discriminate H | (vm_compute in H; discriminate H) ]
      | split; intros H;
        first [ lia
              | (eexists; split; [left; reflexivity | vm_compute; intuition lia])
              | (eexists; split; [| left; reflexivity]; vm_compute; lia) ] ]
    | ]).
  lia.
Qed.

Lemma removed_axes_fit_fourteen_names_witness :
  (removed_axes 15 = unused_axes 15 <-> 15 = 14)%nat /\
  (15 < 14 -> exists i, In i (unused_axes 15) /\ ~ In i (removed_axes 15))%nat /\
  (14 < 15 -> exists i, i < 15 /\ In i (removed_axes 15))%nat.
Proof. apply (removed_axes_fit_fourteen_names 15). lia. Defined.
